(** * libloot: the metadata database façade (api/api_database.cpp) and the
    vector-merging helper (api/helpers/collections.h).

    The C++ is embedded shallowly: vectors are lists, [std::optional] is
    [option], [operator==] on an element type is a boolean-valued class
    method, exceptions are an explicit result type, and the two pieces of
    mutable state the façade touches (the database object and the disk) are
    threaded through a small state-and-exception monad. *)

From Stdlib Require Import Ascii String.
From stdpp Require Import base option list strings gmap.

Open Scope string_scope.
Open Scope list_scope.

(** ** [operator==] *)

(** The comparison a C++ element type brings with it.  It is whatever the
    type defines, so nothing is assumed of it here. *)
Class EqOp (T : Type) := eq_op : T → T → bool.

(** [std::string]'s is equality of the character sequences. *)
#[global] Instance string_eq_op : EqOp string := λ a b, bool_decide (a = b).

(** ** api/helpers/collections.h *)

(** [std::find(first, last, value) == last], negated: does some element [x]
    of the range satisfy [x == value]? *)
Definition std_find_hit {T} `{EqOp T} (range : list T) (value : T) : bool :=
  existsb (λ x, eq_op x value) range.

(** [mergeVectors]: the loop pushes onto [first] while the search range stays
    the first [initialSizeOfFirst] elements. *)
Definition mergeVectors {T} `{EqOp T} (first second : list T) : list T :=
  let initialSizeOfFirst := length first in
  foldl (λ first element,
           if std_find_hit (take initialSizeOfFirst first) element
           then first
           else first ++ [element])
        first second.

(** ** Groups *)

(** Modelled from the spec: loot/metadata/group.h is not among the sources.
    §3: a group has a name, a description and an ordered list of after-group
    names; [MergeGroups] builds one as [Group(name, afterGroups,
    description)]. *)
Record Group := mkGroup {
  Group_GetName : string;
  Group_GetAfterGroups : list string;
  Group_GetDescription : string
}.

(** ** api/api_database.cpp, anonymous namespace *)

(** One iteration of the loop over [userGroups]; the loop state is
    [(mergedGroups, newGroups)].  [list_find] plays [std::find_if] and hands
    back the position the iterator points at. *)
Definition MergeGroups_step (state : list Group * list Group) (userGroup : Group)
  : list Group * list Group :=
  let '(mergedGroups, newGroups) := state in
  match list_find (λ existingGroup,
                     Group_GetName existingGroup = Group_GetName userGroup)
                  mergedGroups with
  | None => (mergedGroups, newGroups ++ [userGroup])
  | Some (groupIt, existing) =>
      let description :=
        if bool_decide (Group_GetDescription userGroup = "")
        then Group_GetDescription existing
        else Group_GetDescription userGroup in
      let afterGroups :=
        Group_GetAfterGroups existing ++ Group_GetAfterGroups userGroup in
      (<[groupIt := mkGroup (Group_GetName userGroup) afterGroups description]>
         mergedGroups,
       newGroups)
  end.

Definition MergeGroups (masterlistGroups userGroups : list Group) : list Group :=
  let '(mergedGroups, newGroups) :=
    foldl MergeGroups_step (masterlistGroups, []) userGroups in
  mergedGroups ++ newGroups.

(** ** Metadata items *)

(** The item types of loot/metadata (file.h, message.h, tag.h,
    plugin_cleaning_data.h, location.h) are not among the sources.  §3 lists
    the items: load-after files, requirements, incompatibilities, messages,
    tag additions/removals, dirty/clean info and locations, "each of these
    items may carry a condition string (opaque to the core)". *)

(** Modelled from the spec: loot/metadata/file.h is missing; a file
    reference is a filename with a condition. *)
Record File := mkFile {
  File_GetName : string;
  File_GetCondition : string
}.

(** Modelled from the spec: loot/metadata/message.h is missing; a message is
    its text with a condition. *)
Record Message := mkMessage {
  Message_GetText : string;
  Message_GetCondition : string
}.

(** Modelled from the spec: loot/metadata/tag.h is missing; a tag
    suggestion adds or removes a named Bash Tag, under a condition. *)
Record Tag := mkTag {
  Tag_IsAddition : bool;
  Tag_GetName : string;
  Tag_GetCondition : string
}.

(** Modelled from the spec: loot/metadata/plugin_cleaning_data.h is missing;
    dirty and clean info are keyed by the CRC of the plugin they describe. *)
Record PluginCleaningData := mkPluginCleaningData {
  PluginCleaningData_GetCRC : N;
  PluginCleaningData_GetDetail : string;
  PluginCleaningData_GetCondition : string
}.

(** Modelled from the spec: loot/metadata/location.h is missing; the fields
    are those of the constructor [Location(url, name)] and the getters that
    tests/api/internals/metadata/yaml/location_test.h exercises. *)
Record Location := mkLocation {
  Location_GetURL : string;
  Location_GetName : string
}.

#[global] Instance File_eq_dec : EqDecision File.
Proof. solve_decision. Defined.
#[global] Instance Message_eq_dec : EqDecision Message.
Proof. solve_decision. Defined.
#[global] Instance Tag_eq_dec : EqDecision Tag.
Proof. solve_decision. Defined.
#[global] Instance PluginCleaningData_eq_dec : EqDecision PluginCleaningData.
Proof. solve_decision. Defined.
#[global] Instance Location_eq_dec : EqDecision Location.
Proof. solve_decision. Defined.
#[global] Instance Group_eq_dec : EqDecision Group.
Proof. solve_decision. Defined.

(** The items' [operator==] are not among the sources either.  §4.1 merges
    files, tags and locations as sets, so equal means the same item; dirty
    and clean info are "keyed by CRC", so two entries are the same entry
    when their CRCs agree. *)

(** Modelled from the spec: [operator==] of [File], missing with file.h. *)
#[global] Instance File_eq_op : EqOp File := λ a b, bool_decide (a = b).
(** Modelled from the spec: [operator==] of [Tag], missing with tag.h. *)
#[global] Instance Tag_eq_op : EqOp Tag := λ a b, bool_decide (a = b).
(** Modelled from the spec: [operator==] of [Location], missing with
    location.h. *)
#[global] Instance Location_eq_op : EqOp Location := λ a b, bool_decide (a = b).
(** Modelled from the spec: [operator==] of [PluginCleaningData], missing
    with plugin_cleaning_data.h: "keyed by CRC". *)
#[global] Instance PluginCleaningData_eq_op : EqOp PluginCleaningData :=
  λ a b, bool_decide (PluginCleaningData_GetCRC a = PluginCleaningData_GetCRC b).

(** ** Plugin metadata *)

(** Modelled from the spec: loot/metadata/plugin_metadata.h is not among
    the sources; the fields are those of §3, "Metadata entry for a plugin". *)
Record PluginMetadata := mkPluginMetadata {
  GetName : string;
  GetGroup : option string;
  GetLoadAfterFiles : list File;
  GetRequirements : list File;
  GetIncompatibilities : list File;
  GetMessages : list Message;
  GetTags : list Tag;
  GetDirtyInfo : list PluginCleaningData;
  GetCleanInfo : list PluginCleaningData;
  GetLocations : list Location
}.

#[global] Instance PluginMetadata_eq_dec : EqDecision PluginMetadata.
Proof. solve_decision. Defined.

(** Modelled from the spec: the constructor [PluginMetadata(name)], missing
    with plugin_metadata.h: an entry that carries a name and nothing else. *)
Definition PluginMetadata_named (name : string) : PluginMetadata :=
  mkPluginMetadata name None [] [] [] [] [] [] [] [].

(** Modelled from the spec: the setter [PluginMetadata::SetTags], missing with
    plugin_metadata.h. *)
Definition SetTags (tags : list Tag) (self : PluginMetadata) : PluginMetadata :=
  mkPluginMetadata (GetName self) (GetGroup self) (GetLoadAfterFiles self)
    (GetRequirements self) (GetIncompatibilities self) (GetMessages self)
    tags (GetDirtyInfo self) (GetCleanInfo self) (GetLocations self).

(** Modelled from the spec: the setter [PluginMetadata::SetDirtyInfo], missing
    with plugin_metadata.h. *)
Definition SetDirtyInfo (dirtyInfo : list PluginCleaningData)
  (self : PluginMetadata) : PluginMetadata :=
  mkPluginMetadata (GetName self) (GetGroup self) (GetLoadAfterFiles self)
    (GetRequirements self) (GetIncompatibilities self) (GetMessages self)
    (GetTags self) dirtyInfo (GetCleanInfo self) (GetLocations self).

(** Modelled from the spec: [PluginMetadata::MergeMetadata] is not among
    the sources.  §4.1: "merge(a, b) (b overrides a) yields: group = b.group
    if set else a.group; load-after/requirements/incompatibilities/
    locations/tags = set-union; messages = concatenation of a then b;
    dirty/clean info = set-union keyed by CRC".  The set-unions are taken
    with the repository's own [mergeVectors], the overriding operand first;
    the spec names no owner for the merged entry's name, which is kept from
    the overriding operand. *)
Definition merge (a b : PluginMetadata) : PluginMetadata :=
  {| GetName := GetName b;
     GetGroup := match GetGroup b with
                 | Some g => Some g
                 | None => GetGroup a
                 end;
     GetLoadAfterFiles := mergeVectors (GetLoadAfterFiles b) (GetLoadAfterFiles a);
     GetRequirements := mergeVectors (GetRequirements b) (GetRequirements a);
     GetIncompatibilities :=
       mergeVectors (GetIncompatibilities b) (GetIncompatibilities a);
     GetMessages := GetMessages a ++ GetMessages b;
     GetTags := mergeVectors (GetTags b) (GetTags a);
     GetDirtyInfo := mergeVectors (GetDirtyInfo b) (GetDirtyInfo a);
     GetCleanInfo := mergeVectors (GetCleanInfo b) (GetCleanInfo a);
     GetLocations := mergeVectors (GetLocations b) (GetLocations a) |}.

(** Modelled from the spec: the method call [self.MergeMetadata(plugin)],
    missing with plugin_metadata.h.  The receiver is the overriding operand:
    [GetPluginMetadata] calls it on the user metadata with the masterlist
    metadata as argument and returns the receiver, and in §4.1 "userlist
    always overrides masterlist". *)
Definition MergeMetadata (self plugin : PluginMetadata) : PluginMetadata :=
  merge plugin self.

(** The merge of two optional entries: an absent side contributes nothing. *)
Definition merge_optional (a b : option PluginMetadata) : option PluginMetadata :=
  match a, b with
  | Some a, Some b => Some (merge a b)
  | Some a, None => Some a
  | None, b => b
  end.

(** "The merge, in order, of" a sequence of entries; none for no entry. *)
Definition merge_in_order (entries : list PluginMetadata) : option PluginMetadata :=
  match entries with
  | [] => None
  | entry :: rest => Some (foldl merge entry rest)
  end.

(** §4.1 once more, in its own words, as a relation between the operands and
    a result; [merge] is compared with it below. *)

(** "Set-union" of vectors: the result holds the elements of both operands
    and no others, and an element of both is not taken twice: operands that
    are sets (no element repeated) give a set. *)
Definition set_union_of {T : Type} (result a b : list T) : Prop :=
  (∀ x, x ∈ result ↔ x ∈ a ∨ x ∈ b)
  ∧ (NoDup a → NoDup b → NoDup result).

(** "Set-union keyed by CRC", [b] overriding [a]: the CRCs of the result are
    those of both operands; its entries are the entries of [b] and the
    entries of [a] whose CRC [b] does not have, so where both have an entry
    for a CRC it is [b]'s that stays; and operands with one entry per CRC
    give one entry per CRC. *)
Definition crc_keyed_union_of (result a b : list PluginCleaningData) : Prop :=
  (∀ crc, crc ∈ PluginCleaningData_GetCRC <$> result
          ↔ crc ∈ PluginCleaningData_GetCRC <$> a
            ∨ crc ∈ PluginCleaningData_GetCRC <$> b)
  ∧ (∀ entry, entry ∈ result
              ↔ entry ∈ b
                ∨ (entry ∈ a
                   ∧ PluginCleaningData_GetCRC entry
                     ∉ PluginCleaningData_GetCRC <$> b))
  ∧ (NoDup (PluginCleaningData_GetCRC <$> a) →
     NoDup (PluginCleaningData_GetCRC <$> b) →
     NoDup (PluginCleaningData_GetCRC <$> result)).

Definition merged_as_specified (a b result : PluginMetadata) : Prop :=
  GetGroup result = (if GetGroup b is Some g then Some g else GetGroup a)
  ∧ set_union_of (GetLoadAfterFiles result) (GetLoadAfterFiles a) (GetLoadAfterFiles b)
  ∧ set_union_of (GetRequirements result) (GetRequirements a) (GetRequirements b)
  ∧ set_union_of (GetIncompatibilities result)
      (GetIncompatibilities a) (GetIncompatibilities b)
  ∧ set_union_of (GetLocations result) (GetLocations a) (GetLocations b)
  ∧ set_union_of (GetTags result) (GetTags a) (GetTags b)
  ∧ GetMessages result = GetMessages a ++ GetMessages b
  ∧ crc_keyed_union_of (GetDirtyInfo result) (GetDirtyInfo a) (GetDirtyInfo b)
  ∧ crc_keyed_union_of (GetCleanInfo result) (GetCleanInfo a) (GetCleanInfo b).

(** Modelled from the spec: filename comparison.  §3: "Plugin identity is
    case-insensitive on filename"; the folding here covers the ASCII
    letters. *)
Definition to_lower (c : ascii) : ascii :=
  let n := nat_of_ascii c in
  if (65 <=? n)%nat && (n <=? 90)%nat then ascii_of_nat (n + 32) else c.

(** Modelled from the spec: case folding of a whole filename. *)
Fixpoint to_lower_string (s : string) : string :=
  match s with
  | EmptyString => EmptyString
  | String c rest => String (to_lower c) (to_lower_string rest)
  end.

(** Modelled from the spec: the case-insensitive comparison of filenames. *)
Definition iequals (a b : string) : bool :=
  bool_decide (to_lower_string a = to_lower_string b).

(** ** The metadata store *)

(** Modelled from the spec: api/metadata_list.h is not among the sources.
    §6: the document oracle "returns {plugins, groups, bash_tags,
    messages}"; §4.2 lists the store's operations. *)
Record MetadataList := mkMetadataList {
  Plugins : list PluginMetadata;
  Groups : list Group;
  BashTags : list string;
  Messages : list Message
}.

#[global] Instance MetadataList_eq_dec : EqDecision MetadataList.
Proof. solve_decision. Defined.

(** Modelled from the spec: a default-constructed [MetadataList], missing
    with metadata_list.h: a store with nothing in it. *)
Definition MetadataList_empty : MetadataList := mkMetadataList [] [] [] [].

(** Modelled from the spec: [MetadataList::Clear] is missing; §4.2 [clear()]
    empties the store. *)
Definition Clear (self : MetadataList) : MetadataList := MetadataList_empty.

(** Modelled from the spec: [MetadataList::SetGroups] is missing; §4.2
    [set_groups(gs)] replaces the store's groups. *)
Definition SetGroups (groups : list Group) (self : MetadataList) : MetadataList :=
  mkMetadataList (Plugins self) groups (BashTags self) (Messages self).

(** Modelled from the spec: [MetadataList::AddPlugin] is missing; after §4.2
    [add_plugin(meta)] the entry is in the store, last in document order. *)
Definition AddPlugin (plugin : PluginMetadata) (self : MetadataList) : MetadataList :=
  mkMetadataList (Plugins self ++ [plugin]) (Groups self) (BashTags self)
    (Messages self).

(** Modelled from the spec: [MetadataList::ErasePlugin] is missing; after
    §4.2 [erase_plugin(name)] no entry of that name is left. *)
Definition ErasePlugin (pluginName : string) (self : MetadataList) : MetadataList :=
  mkMetadataList
    (List.filter (λ entry, negb (iequals (GetName entry) pluginName)) (Plugins self))
    (Groups self) (BashTags self) (Messages self).

(** The database object: its two stores. *)
Record ApiDatabase := mkApiDatabase {
  masterlist_ : MetadataList;
  userlist_ : MetadataList
}.

(** ** Exceptions *)

Inductive ErrorKind :=
| FileAccessError
| InvalidArgument
| ParseError
| ConditionSyntaxError.

Record Exception := mkException {
  kind : ErrorKind;
  what : string
}.

Inductive Result (A : Type) :=
| Ok (value : A)
| Throw (e : Exception).
Arguments Ok {A} value.
Arguments Throw {A} e.

(** ** The disk and the state the façade runs in *)

(** Modelled from the spec: [std::filesystem] as the façade sees it.  A path
    is a directory, a file holding a serialised document, or absent. *)
Record FileSystem (Document : Type) := mkFileSystem {
  directories : gset string;
  files : gmap string Document
}.
Arguments mkFileSystem {Document} _ _.
Arguments directories {Document} _.
Arguments files {Document} _.

Record World (Document : Type) := mkWorld {
  database : ApiDatabase;
  disk : FileSystem Document
}.
Arguments mkWorld {Document} _ _.
Arguments database {Document} _.
Arguments disk {Document} _.

(** A computation that reads and writes the world and may throw.  A throw
    keeps the world as it was when the exception left the method. *)
Definition Op (Document A : Type) : Type :=
  World Document → World Document * Result A.

#[global] Instance Op_ret {Document} : MRet (Op Document) :=
  λ A value w, (w, Ok value).

#[global] Instance Op_bind {Document} : MBind (Op Document) :=
  λ A B k m w,
    match m w with
    | (w', Ok value) => k value w'
    | (w', Throw e) => (w', Throw e)
    end.

Definition throw {Document A} (e : Exception) : Op Document A :=
  λ w, (w, Throw e).

(** ** Sample collaborators and worlds

    A small instance of everything the database is parameterised over, to
    run the façade on. *)

(** The characters that make a plugin name a regular expression here. *)
Definition sample_IsRegexPlugin (name : string) : bool :=
  existsb (λ c, bool_decide (c ∈ [":"; "\"; "*"; "?"; "|"]%char))
          (list_ascii_of_string name).

(** The one regular expression the sample matcher knows: [.*], which matches
    every filename. *)
Definition sample_regex_match (regex filename : string) : bool :=
  bool_decide (regex = ".*").

(** Documents kept in parsed form: the emitter and the parser are inverse,
    and a prelude adds nothing. *)
Definition sample_emit (list : MetadataList) : MetadataList := list.
Definition sample_parse (document : MetadataList) : option MetadataList :=
  Some document.
Definition sample_parse_with_prelude (document prelude : MetadataList)
  : option MetadataList := Some document.

(** An evaluator under which every condition holds. *)
Definition sample_EvaluateAll (metadata : PluginMetadata) : Result PluginMetadata :=
  Ok metadata.

(** The path up to its last separator. *)
Fixpoint sample_parent_path (path : string) : string :=
  match path with
  | EmptyString => EmptyString
  | String c rest =>
      if existsb (λ d, bool_decide (d = "/"%char)) (list_ascii_of_string rest)
      then String c (sample_parent_path rest)
      else EmptyString
  end.

Definition sample_masterlist : MetadataList :=
  mkMetadataList
    [ mkPluginMetadata ".*" None [] [] []
        [mkMessage "Sorted by LOOT" ""] [] [] [] [];
      mkPluginMetadata "Blank.esp" (Some "early")
        [mkFile "Blank.esm" ""] [] []
        [mkMessage "Needs cleaning" ""]
        [mkTag true "Relev" ""; mkTag false "Delev" ""]
        [mkPluginCleaningData 3735928559 "2 ITM records" ""] []
        [mkLocation "http://www.example.com" "example"] ]
    [mkGroup "default" [] ""; mkGroup "early" [] "Loads early";
     mkGroup "late" ["default"] "Loads late"]
    ["Relev"; "Delev"]
    [mkMessage "A general message" ""].

Definition sample_userlist : MetadataList :=
  mkMetadataList
    [ mkPluginMetadata ".*" (Some "late") [] [] [] [] [] [] [] [];
      mkPluginMetadata "blank.esp" None
        [mkFile "Blank.esm" ""; mkFile "Other.esp" ""] [] []
        [mkMessage "My note" ""]
        [mkTag true "Relev" ""]
        [mkPluginCleaningData 3735928559 "user override" ""] [] [] ]
    [mkGroup "late" ["early"] ""; mkGroup "mine" ["late"] "My group"]
    ["Relev"; "C.Water"]
    [].

Definition sample_disk : FileSystem MetadataList :=
  mkFileSystem {["/data"]}
    {["/data/masterlist.yaml" := sample_masterlist;
      "/data/userlist.yaml" := sample_userlist]}.

Definition sample_world : World MetadataList :=
  mkWorld (mkApiDatabase sample_masterlist sample_userlist) sample_disk.

(** A world whose two stores are still empty. *)
Definition sample_fresh_world : World MetadataList :=
  mkWorld (mkApiDatabase MetadataList_empty MetadataList_empty) sample_disk.


(** The effective metadata of Blank.esp in the sample masterlist and in the
    sample userlist, and their merge. *)
Definition sample_masterlist_effective : PluginMetadata :=
  mkPluginMetadata "Blank.esp" (Some "early")
    [mkFile "Blank.esm" ""] [] []
    [mkMessage "Sorted by LOOT" ""; mkMessage "Needs cleaning" ""]
    [mkTag true "Relev" ""; mkTag false "Delev" ""]
    [mkPluginCleaningData 3735928559 "2 ITM records" ""] []
    [mkLocation "http://www.example.com" "example"].

Definition sample_userlist_effective : PluginMetadata :=
  mkPluginMetadata "blank.esp" (Some "late")
    [mkFile "Blank.esm" ""; mkFile "Other.esp" ""] [] []
    [mkMessage "My note" ""]
    [mkTag true "Relev" ""]
    [mkPluginCleaningData 3735928559 "user override" ""] [] [].

Definition sample_merged : PluginMetadata :=
  mkPluginMetadata "blank.esp" (Some "late")
    [mkFile "Blank.esm" ""; mkFile "Other.esp" ""] [] []
    [mkMessage "Sorted by LOOT" ""; mkMessage "Needs cleaning" "";
     mkMessage "My note" ""]
    [mkTag true "Relev" ""; mkTag false "Delev" ""]
    [mkPluginCleaningData 3735928559 "user override" ""] []
    [mkLocation "http://www.example.com" "example"].


(** A condition evaluator whose state is its cache.  The empty condition
    holds, [never] does not, and an unbalanced parenthesis is a syntax
    error; whatever else it is asked holds. *)
Definition sample_condition_outcome (condition : string) : Result bool :=
  if bool_decide (condition = "(")
  then Throw (mkException ConditionSyntaxError "Failed to parse condition")
  else Ok (negb (bool_decide (condition = "never"))).

Definition sample_Evaluate (condition : string) (cache : gmap string bool)
  : gmap string bool * Result bool :=
  match cache !! condition with
  | Some holds => (cache, Ok holds)
  | None =>
      match sample_condition_outcome condition with
      | Ok holds => (<[condition := holds]> cache, Ok holds)
      | Throw e => (cache, Throw e)
      end
  end.

Definition sample_ClearConditionCache (cache : gmap string bool)
  : gmap string bool := ∅.

(** What the sample evaluator answers when its cache does not mislead it. *)
Definition sample_holds (condition : string) : bool :=
  negb (bool_decide (condition = "never")).

(** A cache that holds no wrong answer. *)
Definition sample_cache_consistent (cache : gmap string bool) : Prop :=
  ∀ condition holds,
    cache !! condition = Some holds →
    sample_condition_outcome condition = Ok holds.

(** Groups with repeated names: "late" twice in the masterlist's and twice
    among the user's. *)
Definition sample_repeated_masterlist_groups : list Group :=
  [mkGroup "default" [] ""; mkGroup "late" ["default"] "Loads late";
   mkGroup "late" ["early"] "A second late"].

Definition sample_repeated_user_groups : list Group :=
  [mkGroup "late" ["mine"] ""; mkGroup "mine" [] "My group";
   mkGroup "late" ["other"] "Later still"].

(** A database with general messages in both stores. *)
Definition sample_messages_database : ApiDatabase :=
  mkApiDatabase
    (mkMetadataList [] [] []
       [mkMessage "Always shown" ""; mkMessage "Never shown" "never"])
    (mkMetadataList [] [] [] [mkMessage "From the user" "active(Blank.esm)"]).

(** The same with a user message whose condition does not parse. *)
Definition sample_broken_messages_database : ApiDatabase :=
  mkApiDatabase
    (mkMetadataList [] [] []
       [mkMessage "Always shown" ""; mkMessage "Never shown" "never"])
    (mkMetadataList [] [] []
       [mkMessage "Broken" "("; mkMessage "From the user" ""]).

Section Database.

Set Default Proof Using "Type".

(** *** Collaborators *)

(** Regular-expression plugin names: which names are regular expressions,
    and which filenames such a name matches. *)
Variable IsRegexPlugin : string → bool.
Variable regex_match : string → string → bool.

(** The metadata document oracle: the serialised form of a store, the
    emitter, and the parser with and without a prelude ([None] for a
    document it rejects). *)
Variable Document : Type.
Variable emit : MetadataList → Document.
Variable parse : Document → option MetadataList.
Variable parse_with_prelude : Document → Document → option MetadataList.

(** The condition evaluator's [EvaluateAll]. *)
Variable EvaluateAll : PluginMetadata → Result PluginMetadata.

(** [std::filesystem::path::parent_path]. *)
Variable parent_path : string → string.

(** *** Store lookup *)

(** [MetadataList::FindPlugin] is not among the sources.  §4.2: it "returns
    the effective (regex-expanded, ordered) metadata for name, or none";
    §4.1: the effective metadata is "the merge, in order, of: every regex
    match ..., then the exact ... match". *)

(** Modelled from the spec: "every regex match" of a store, in document
    order; part of the missing [MetadataList::FindPlugin]. *)
Definition regex_matches (self : MetadataList) (pluginName : string)
  : list PluginMetadata :=
  List.filter
    (λ entry, IsRegexPlugin (GetName entry)
              && regex_match (GetName entry) pluginName)
    (Plugins self).

(** Modelled from the spec: "the exact ... match" of a store, by filename;
    part of the missing [MetadataList::FindPlugin]. *)
Definition exact_match (self : MetadataList) (pluginName : string)
  : option PluginMetadata :=
  List.find
    (λ entry, negb (IsRegexPlugin (GetName entry))
              && iequals (GetName entry) pluginName)
    (Plugins self).

(** Modelled from the spec: the missing [MetadataList::FindPlugin], the merge
    in order of the regex matches and then the exact match. *)
Definition FindPlugin (self : MetadataList) (pluginName : string)
  : option PluginMetadata :=
  merge_in_order
    (regex_matches self pluginName ++ option_list (exact_match self pluginName)).

(** *** Disk access *)

(** [std::filesystem::exists] on the modelled disk. *)
Definition fs_exists (fs : FileSystem Document) (path : string) : bool :=
  bool_decide (path ∈ directories fs) || bool_decide (is_Some (files fs !! path)).

(** [std::filesystem::exists(path)], as a step of a method. *)
Definition exists_ (path : string) : Op Document bool :=
  λ w, (w, Ok (fs_exists (disk w) path)).

(** [MetadataList::Load], [LoadWithPrelude] and [Save] are not among the
    sources.  §4.2: load "fails with ParseError if malformed,
    FileAccessError if unreadable". *)

(** Modelled from the spec: opening a document for reading, the first step of
    the missing [MetadataList::Load]; "FileAccessError if unreadable". *)
Definition read_file (path : string) : Op Document Document :=
  λ w, match files (disk w) !! path with
       | Some document => (w, Ok document)
       | None => (w, Throw (mkException FileAccessError
                              ("Cannot read " +:+ path)))
       end.

(** Modelled from the spec: the missing [MetadataList::Load]; "ParseError if
    malformed". *)
Definition MetadataList_Load (path : string) : Op Document MetadataList :=
  document ← read_file path;
  match parse document with
  | Some list => mret list
  | None => throw (mkException ParseError ("Cannot parse " +:+ path))
  end.

(** Modelled from the spec: the missing [MetadataList::LoadWithPrelude]; both
    documents are read, then parsed together. *)
Definition MetadataList_LoadWithPrelude (path preludePath : string)
  : Op Document MetadataList :=
  document ← read_file path;
  prelude ← read_file preludePath;
  match parse_with_prelude document prelude with
  | Some list => mret list
  | None => throw (mkException ParseError ("Cannot parse " +:+ path))
  end.

(** Modelled from the spec: the missing [MetadataList::Save]; the emitted
    document becomes the file's content, and a path that cannot be opened for
    writing (a directory) is a FileAccessError (§7: "missing or
    unwritable"). *)
Definition MetadataList_Save (self : MetadataList) (path : string)
  : Op Document unit :=
  λ w, if bool_decide (path ∈ directories (disk w))
       then (w, Throw (mkException FileAccessError "Couldn't open output file."))
       else (mkWorld (database w)
               (mkFileSystem (directories (disk w))
                  (<[path := emit self]> (files (disk w)))),
             Ok ()).

(** *** Access to the members of the database object *)

Definition get_masterlist : Op Document MetadataList :=
  λ w, (w, Ok (masterlist_ (database w))).

Definition get_userlist : Op Document MetadataList :=
  λ w, (w, Ok (userlist_ (database w))).

Definition set_masterlist (list : MetadataList) : Op Document unit :=
  λ w, (mkWorld (mkApiDatabase list (userlist_ (database w))) (disk w), Ok ()).

Definition set_userlist (list : MetadataList) : Op Document unit :=
  λ w, (mkWorld (mkApiDatabase (masterlist_ (database w)) list) (disk w), Ok ()).

(** *** Database loading functions *)

Definition LoadMasterlist (masterlistPath : string) : Op Document unit :=
  found ← exists_ masterlistPath;
  temp ← (if (found : bool)
          then MetadataList_Load masterlistPath
          else throw (mkException FileAccessError
                        ("The given masterlist path does not exist: "
                         +:+ masterlistPath)));
  set_masterlist temp.

Definition LoadMasterlistWithPrelude (masterlistPath masterlistPreludePath : string)
  : Op Document unit :=
  found ← exists_ masterlistPath;
  temp ← (if (found : bool) then
            preludeFound ← exists_ masterlistPreludePath;
            (if (preludeFound : bool)
             then MetadataList_LoadWithPrelude masterlistPath masterlistPreludePath
             else throw (mkException FileAccessError
                           ("The given masterlist prelude path does not exist: "
                            +:+ masterlistPreludePath)))
          else throw (mkException FileAccessError
                        ("The given masterlist path does not exist: "
                         +:+ masterlistPath)));
  set_masterlist temp.

Definition LoadUserlist (userlistPath : string) : Op Document unit :=
  found ← exists_ userlistPath;
  temp ← (if (found : bool)
          then MetadataList_Load userlistPath
          else throw (mkException FileAccessError
                        ("The given userlist path does not exist: "
                         +:+ userlistPath)));
  set_userlist temp.

Definition WriteUserMetadata (outputFile : string) (overwrite : bool)
  : Op Document unit :=
  directoryFound ← exists_ (parent_path outputFile);
  if negb directoryFound
  then throw (mkException InvalidArgument "Output directory does not exist.")
  else
    fileFound ← exists_ outputFile;
    if (fileFound : bool) && negb overwrite
    then throw (mkException FileAccessError
                  "Output file exists but overwrite is not set to true.")
    else
      userlist ← get_userlist;
      MetadataList_Save userlist outputFile.

(** *** Database access functions *)

Definition GetKnownBashTags (db : ApiDatabase) : list string :=
  let masterlistTags := BashTags (masterlist_ db) in
  let userlistTags := BashTags (userlist_ db) in
  if bool_decide (userlistTags = [])
  then masterlistTags
  else masterlistTags ++ userlistTags.

Definition GetGroups (db : ApiDatabase) (includeUserMetadata : bool) : list Group :=
  if includeUserMetadata
  then MergeGroups (Groups (masterlist_ db)) (Groups (userlist_ db))
  else Groups (masterlist_ db).

Definition GetUserGroups (db : ApiDatabase) : list Group :=
  Groups (userlist_ db).

Definition SetUserGroups (groups : list Group) : Op Document unit :=
  userlist ← get_userlist;
  set_userlist (SetGroups groups userlist).

Definition GetPluginMetadata (db : ApiDatabase) (plugin : string)
  (includeUserMetadata evaluateConditions : bool)
  : Result (option PluginMetadata) :=
  let metadata := FindPlugin (masterlist_ db) plugin in
  let metadata :=
    if includeUserMetadata then
      match FindPlugin (userlist_ db) plugin with
      | Some userMetadata =>
          match metadata with
          | Some masterlistMetadata =>
              Some (MergeMetadata userMetadata masterlistMetadata)
          | None => Some userMetadata
          end
      | None => metadata
      end
    else metadata in
  match metadata with
  | Some found =>
      if evaluateConditions
      then match EvaluateAll found with
           | Ok evaluated => Ok (Some evaluated)
           | Throw e => Throw e
           end
      else Ok metadata
  | None => Ok metadata
  end.

Definition GetPluginUserMetadata (db : ApiDatabase) (plugin : string)
  (evaluateConditions : bool) : Result (option PluginMetadata) :=
  let metadata := FindPlugin (userlist_ db) plugin in
  match metadata with
  | Some found =>
      if evaluateConditions
      then match EvaluateAll found with
           | Ok evaluated => Ok (Some evaluated)
           | Throw e => Throw e
           end
      else Ok metadata
  | None => Ok metadata
  end.

Definition SetPluginUserMetadata (pluginMetadata : PluginMetadata)
  : Op Document unit :=
  userlist ← get_userlist;
  let erased := ErasePlugin (GetName pluginMetadata) userlist in
  set_userlist (AddPlugin pluginMetadata erased).

Definition DiscardPluginUserMetadata (plugin : string) : Op Document unit :=
  userlist ← get_userlist;
  set_userlist (ErasePlugin plugin userlist).

Definition DiscardAllUserMetadata : Op Document unit :=
  userlist ← get_userlist;
  set_userlist (Clear userlist).

(** The list [WriteMinimalList] builds and hands to [Save]. *)
Definition minimalPlugin_of (plugin : PluginMetadata) : PluginMetadata :=
  let minimalPlugin := PluginMetadata_named (GetName plugin) in
  let minimalPlugin := SetTags (GetTags plugin) minimalPlugin in
  SetDirtyInfo (GetDirtyInfo plugin) minimalPlugin.

Definition minimalList_of (masterlist : MetadataList) : MetadataList :=
  foldl (λ minimalList plugin, AddPlugin (minimalPlugin_of plugin) minimalList)
        MetadataList_empty (Plugins masterlist).

Definition WriteMinimalList (outputFile : string) (overwrite : bool)
  : Op Document unit :=
  directoryFound ← exists_ (parent_path outputFile);
  if negb directoryFound
  then throw (mkException InvalidArgument "Output directory does not exist.")
  else
    fileFound ← exists_ outputFile;
    if (fileFound : bool) && negb overwrite
    then throw (mkException FileAccessError
                  "Output file exists but overwrite is not set to true.")
    else
      masterlist ← get_masterlist;
      MetadataList_Save (minimalList_of masterlist) outputFile.

(** *** General messages *)

(** The condition evaluator object behind [conditionEvaluator_], for the
    methods whose effect on it shows: its state, [Evaluate] (which may
    throw and may change the state, its cache for one) and
    [ClearConditionCache]. *)
Variable ConditionEvaluator : Type.
Variable ConditionEvaluator_Evaluate
  : string → ConditionEvaluator → ConditionEvaluator * Result bool.
Variable ClearConditionCache : ConditionEvaluator → ConditionEvaluator.

(** [ApiDatabase::Evaluate]. *)
Definition Evaluate (condition : string) (evaluator : ConditionEvaluator)
  : ConditionEvaluator * Result bool :=
  ConditionEvaluator_Evaluate condition evaluator.

(** The loop of [GetGeneralMessages] over the vector it erases from: [it] is
    the iterator's position, and the loop ends when it reaches the end of the
    vector.  Each turn either erases an element or advances, so as many turns
    as the vector is long are enough. *)
Fixpoint GetGeneralMessages_loop (turns : nat) (masterlistMessages : list Message)
  (it : nat) (evaluator : ConditionEvaluator)
  : ConditionEvaluator * Result (list Message) :=
  match turns with
  | 0 => (evaluator, Ok masterlistMessages)
  | S turns =>
      match masterlistMessages !! it with
      | None => (evaluator, Ok masterlistMessages)
      | Some message =>
          match ConditionEvaluator_Evaluate (Message_GetCondition message)
                  evaluator with
          | (evaluator, Throw e) => (evaluator, Throw e)
          | (evaluator, Ok false) =>
              GetGeneralMessages_loop turns (delete it masterlistMessages) it
                evaluator
          | (evaluator, Ok true) =>
              GetGeneralMessages_loop turns masterlistMessages (S it) evaluator
          end
      end
  end.

Definition GetGeneralMessages (db : ApiDatabase) (evaluateConditions : bool)
  (evaluator : ConditionEvaluator)
  : ConditionEvaluator * Result (list Message) :=
  let masterlistMessages := Messages (masterlist_ db) in
  let userlistMessages := Messages (userlist_ db) in
  let masterlistMessages :=
    if bool_decide (userlistMessages = [])
    then masterlistMessages
    else masterlistMessages ++ userlistMessages in
  if evaluateConditions
  then
    let evaluator := ClearConditionCache evaluator in
    GetGeneralMessages_loop (length masterlistMessages) masterlistMessages 0
      evaluator
  else (evaluator, Ok masterlistMessages).

(** The same walk written on the part of the vector still ahead of the
    iterator: the messages it keeps, in order. *)
Fixpoint kept_messages (ahead : list Message) (evaluator : ConditionEvaluator)
  : ConditionEvaluator * Result (list Message) :=
  match ahead with
  | [] => (evaluator, Ok [])
  | message :: ahead =>
      match ConditionEvaluator_Evaluate (Message_GetCondition message)
              evaluator with
      | (evaluator, Throw e) => (evaluator, Throw e)
      | (evaluator, Ok holds) =>
          match kept_messages ahead evaluator with
          | (evaluator, Throw e) => (evaluator, Throw e)
          | (evaluator, Ok kept) =>
              (evaluator, Ok (if holds then message :: kept else kept))
          end
      end
  end.

(** ** Properties *)

(** *** [mergeVectors] *)

Section mergeVectors_facts.
Context {T : Type} `{EqOp T}.

(** The loop, started anywhere after the original [first]: the search
    range never grows, so what is pushed does not depend on what was
    pushed before. *)
Lemma mergeVectors_loop (first : list T) :
  ∀ second pushed,
    foldl (λ acc element,
             if std_find_hit (take (length first) acc) element
             then acc else acc ++ [element])
          (first ++ pushed) second
    = first ++ pushed
      ++ List.filter (λ element, negb (std_find_hit first element)) second.
Proof.
  induction second as [|element second IH]; intros pushed; simpl.
  - by rewrite app_nil_r.
  - rewrite take_app_length.
    destruct (std_find_hit first element); simpl; [apply IH|].
    rewrite <- app_assoc, IH, <- app_assoc. done.
Qed.

Lemma mergeVectors_unfold (first second : list T) :
  mergeVectors first second
  = first ++ List.filter (λ element, negb (std_find_hit first element)) second.
Proof.
  pose proof (mergeVectors_loop first second []) as Hloop.
  simpl in Hloop. by rewrite app_nil_r in Hloop.
Qed.

Lemma filter_all_hit (f : T → bool) (l : list T) :
  (∀ x, x ∈ l → f x = false) → List.filter f l = [].
Proof.
  induction l as [|x l IH]; intros Hall; simpl; [done|].
  rewrite Hall by left. apply IH. intros y Hy. apply Hall. by right.
Qed.

Lemma sublist_replicate_filter (f : T → bool) (e : T) (k : nat) (l : list T) :
  f e = true → replicate k e `sublist_of` l →
  replicate k e `sublist_of` List.filter f l.
Proof.
  intros He. revert k.
  induction l as [|x l IH]; intros k Hsub.
  - by apply sublist_nil_r in Hsub as ->.
  - destruct k as [|k]; [apply sublist_nil_l|].
    simpl in Hsub. apply sublist_cons_r in Hsub as [Hsub|(l' & Heq & Hsub)].
    + simpl. destruct (f x); [apply sublist_cons|]; by apply (IH (S k)).
    + injection Heq as <- <-. simpl. rewrite He.
      apply sublist_skip. by apply IH.
Qed.
End mergeVectors_facts.

(** C8.  [mergeVectors first second] is [first], unchanged, followed by the
    elements of [second] that [std::find] does not find in the original
    [first], in their order in [second].  Nothing is compared with what the
    loop has pushed: [k] copies of an element in [second] that [first] does
    not hold are [k] copies in the appended part.  When [operator==] is
    reflexive, [mergeVectors v v = v]. *)
Theorem mergeVectors_spec {T : Type} `{EqOp T} (first second : list T) :
  mergeVectors first second
  = first ++ List.filter (λ element, negb (std_find_hit first element)) second
  ∧ take (length first) (mergeVectors first second) = first
  ∧ (∀ (element : T) (k : nat),
       std_find_hit first element = false →
       replicate k element `sublist_of` second →
       replicate k element
         `sublist_of` drop (length first) (mergeVectors first second))
  ∧ ((∀ x : T, eq_op x x = true) → mergeVectors first first = first).
Proof.
  rewrite !mergeVectors_unfold. split_and!.
  - done.
  - by rewrite take_app_length.
  - intros element k Hmiss Hsub. rewrite drop_app_length.
    apply sublist_replicate_filter; [by rewrite Hmiss|done].
  - intros Hrefl. rewrite filter_all_hit; [by rewrite app_nil_r|].
    intros x Hx. apply negb_false_iff, existsb_exists.
    exists x. split; [by apply list_elem_of_In|apply Hrefl].
Qed.

(** *** [MergeGroups] *)

(** The loop never changes a name in [mergedGroups], and [newGroups]
    collects, in order, the user groups whose name [mergedGroups] lacks. *)
Lemma MergeGroups_loop_names (userGroups : list Group) :
  ∀ mergedGroups newGroups,
    Group_GetName <$> (foldl MergeGroups_step (mergedGroups, newGroups) userGroups).1
    = Group_GetName <$> mergedGroups
    ∧ (foldl MergeGroups_step (mergedGroups, newGroups) userGroups).2
      = newGroups
        ++ filter (λ u, Group_GetName u ∉ Group_GetName <$> mergedGroups) userGroups.
Proof.
  induction userGroups as [|u userGroups IH]; intros mergedGroups newGroups.
  - simpl. by rewrite app_nil_r.
  - cbn [foldl]. unfold MergeGroups_step at 2 4.
    destruct (list_find _ mergedGroups) as [[i g]|] eqn:Hfind.
    + apply list_find_Some in Hfind as (Hi & Hname & _).
      set (g' := mkGroup _ _ _).
      assert (Group_GetName <$> <[i:=g']> mergedGroups
              = Group_GetName <$> mergedGroups) as Hnames.
      { rewrite list_fmap_insert. apply list_insert_id.
        rewrite list_lookup_fmap, Hi. simpl. by rewrite Hname. }
      destruct (IH (<[i:=g']> mergedGroups) newGroups) as [IH1 IH2].
      rewrite IH1, IH2, Hnames. split; [done|].
      rewrite filter_cons_False; [done|].
      intros Hnot. apply Hnot. rewrite <- Hname.
      apply list_elem_of_fmap. exists g. split; [done|].
      by eapply list_elem_of_lookup_2.
    + apply list_find_None in Hfind.
      destruct (IH mergedGroups (newGroups ++ [u])) as [IH1 IH2].
      rewrite IH1, IH2. split; [done|].
      rewrite filter_cons_True, <- app_assoc; [done|].
      intros (g & Hname & Hg)%list_elem_of_fmap.
      rewrite Forall_forall in Hfind. by apply (Hfind g).
Qed.

(** A group whose name no user group bears is left as it is. *)
Lemma MergeGroups_loop_untouched (userGroups : list Group) :
  ∀ mergedGroups newGroups i g,
    mergedGroups !! i = Some g →
    (∀ u, u ∈ userGroups → Group_GetName u ≠ Group_GetName g) →
    (foldl MergeGroups_step (mergedGroups, newGroups) userGroups).1 !! i = Some g.
Proof.
  induction userGroups as [|u userGroups IH];
    intros mergedGroups newGroups i g Hi Hother; [done|].
  cbn [foldl]. unfold MergeGroups_step at 2.
  destruct (list_find _ mergedGroups) as [[j g0]|] eqn:Hfind.
  - apply list_find_Some in Hfind as (Hj & Hname & _).
    apply IH; [|intros u' Hu'; apply Hother; by right].
    rewrite list_lookup_insert_ne; [done|].
    intros ->. rewrite Hi in Hj. injection Hj as <-.
    apply (Hother u); [by left|done].
  - apply IH; [done|]. intros u' Hu'. apply Hother. by right.
Qed.

(** The one user group that bears the name of a masterlist group is merged
    into the first masterlist group of that name. *)
Lemma MergeGroups_loop_merged (before after : list Group) (u : Group) :
  ∀ mergedGroups newGroups i g,
    mergedGroups !! i = Some g →
    (∀ j g', j < i → mergedGroups !! j = Some g' →
             Group_GetName g' ≠ Group_GetName g) →
    Group_GetName u = Group_GetName g →
    (∀ u', u' ∈ before ++ after → Group_GetName u' ≠ Group_GetName g) →
    (foldl MergeGroups_step (mergedGroups, newGroups) (before ++ u :: after)).1 !! i
    = Some (mkGroup (Group_GetName g)
              (Group_GetAfterGroups g ++ Group_GetAfterGroups u)
              (if bool_decide (Group_GetDescription u = "")
               then Group_GetDescription g
               else Group_GetDescription u)).
Proof.
  intros mergedGroups newGroups i g Hi Hfirst Hname Hother.
  rewrite foldl_app.
  destruct (foldl MergeGroups_step (mergedGroups, newGroups) before)
    as [merged1 new1] eqn:Hbefore.
  assert (merged1 !! i = Some g) as Hi1.
  { pose proof (MergeGroups_loop_untouched before mergedGroups newGroups i g Hi)
      as Hkeep.
    rewrite Hbefore in Hkeep. apply Hkeep.
    intros u' Hu'. apply Hother, elem_of_app. by left. }
  assert (Group_GetName <$> merged1 = Group_GetName <$> mergedGroups) as Hnames.
  { pose proof (MergeGroups_loop_names before mergedGroups newGroups) as [Hn _].
    by rewrite Hbefore in Hn. }
  cbn [foldl]. unfold MergeGroups_step at 2.
  assert (list_find (λ existingGroup,
                       Group_GetName existingGroup = Group_GetName u) merged1
          = Some (i, g)) as ->.
  { apply list_find_Some. split_and!; [done|done|].
    intros j g' Hj Hlt Heq.
    assert ((Group_GetName <$> mergedGroups) !! j = Some (Group_GetName g')) as Hj'.
    { by rewrite <- Hnames, list_lookup_fmap, Hj. }
    rewrite list_lookup_fmap in Hj'.
    destruct (mergedGroups !! j) as [g''|] eqn:Hj''; [|done].
    injection Hj' as Hj'.
    apply (Hfirst j g'' Hlt Hj''). congruence. }
  rewrite Hname.
  apply MergeGroups_loop_untouched.
  - apply list_lookup_insert_eq. by eapply lookup_lt_Some.
  - intros u' Hu'. simpl. apply Hother, elem_of_app. by right.
Qed.

(** C2.  [GetGroups(false)] is the masterlist's groups.  In
    [GetGroups(true)], with group names unique within each store (§3), a
    masterlist group that a user group shares its name with stays at its
    position and takes the user description unless that is empty and the
    masterlist after-groups followed by the user after-groups; a masterlist
    group that no user group shares its name with is unchanged; and past the
    masterlist groups come exactly the user groups whose names the
    masterlist lacks, in userlist order. *)
Theorem GetGroups_spec (db : ApiDatabase) :
  let masterlistGroups := Groups (masterlist_ db) in
  let userGroups := Groups (userlist_ db) in
  GetGroups db false = masterlistGroups
  ∧ (NoDup (Group_GetName <$> masterlistGroups) →
     NoDup (Group_GetName <$> userGroups) →
     ∀ i g u,
       masterlistGroups !! i = Some g → u ∈ userGroups →
       Group_GetName u = Group_GetName g →
       GetGroups db true !! i
       = Some (mkGroup (Group_GetName g)
                 (Group_GetAfterGroups g ++ Group_GetAfterGroups u)
                 (if bool_decide (Group_GetDescription u = "")
                  then Group_GetDescription g
                  else Group_GetDescription u)))
  ∧ (∀ i g,
       masterlistGroups !! i = Some g →
       (∀ u, u ∈ userGroups → Group_GetName u ≠ Group_GetName g) →
       GetGroups db true !! i = Some g)
  ∧ drop (length masterlistGroups) (GetGroups db true)
    = filter (λ u, Group_GetName u ∉ Group_GetName <$> masterlistGroups)
             userGroups.
Proof.
  intros M U. unfold GetGroups, MergeGroups. fold M U.
  pose proof (MergeGroups_loop_names U M []) as [Hnames Hnew].
  destruct (foldl MergeGroups_step (M, []) U) as [merged new] eqn:Hloop.
  simpl in Hnames, Hnew.
  assert (length merged = length M) as Hlen.
  { by rewrite <- (length_fmap Group_GetName merged), Hnames, length_fmap. }
  split_and!.
  - done.
  - intros HM HU i g u Hi Hu Hname.
    apply list_elem_of_split in Hu as (before & after & HUeq).
    pose proof (MergeGroups_loop_merged before after u M [] i g Hi) as Hmerged.
    rewrite <- HUeq, Hloop in Hmerged. simpl in Hmerged.
    rewrite lookup_app_l by (rewrite Hlen; by eapply lookup_lt_Some).
    apply Hmerged; [|done|].
    + intros j g' Hlt Hj Heq.
      assert (j = i); [|lia].
      eapply (NoDup_lookup _ j i (Group_GetName g) HM);
        rewrite list_lookup_fmap; [by rewrite Hj, <- Heq|by rewrite Hi].
    + intros u' Hu' Heq.
      rewrite HUeq, fmap_app, fmap_cons in HU.
      apply NoDup_app in HU as (_ & Hdisj & [Hnotin _]%NoDup_cons).
      apply elem_of_app in Hu' as [Hu'|Hu'].
      * apply (Hdisj (Group_GetName u')); [by apply list_elem_of_fmap_2|].
        rewrite Heq, <- Hname. by left.
      * apply Hnotin. rewrite Hname, <- Heq. by apply list_elem_of_fmap_2.
  - intros i g Hi Hother.
    pose proof (MergeGroups_loop_untouched U M [] i g Hi Hother) as Hkeep.
    rewrite Hloop in Hkeep.
    rewrite lookup_app_l by (rewrite Hlen; by eapply lookup_lt_Some). done.
  - by rewrite <- Hlen, drop_app_length, Hnew.
Qed.

(** *** Accessors *)

(** C10.  [GetKnownBashTags] is the masterlist's tags followed by the
    userlist's, nothing dropped and nothing reordered: a tag is in the
    result as often as in the two lists together. *)
Theorem GetKnownBashTags_spec (db : ApiDatabase) :
  GetKnownBashTags db = BashTags (masterlist_ db) ++ BashTags (userlist_ db)
  ∧ ∀ tag : string,
      count_occ string_dec (GetKnownBashTags db) tag
      = count_occ string_dec (BashTags (masterlist_ db)) tag
        + count_occ string_dec (BashTags (userlist_ db)) tag.
Proof.
  assert (GetKnownBashTags db
          = BashTags (masterlist_ db) ++ BashTags (userlist_ db)) as Heq.
  { unfold GetKnownBashTags. case_bool_decide as Hempty; [|done].
    by rewrite Hempty, app_nil_r. }
  split; [done|]. intros tag. by rewrite Heq, count_occ_app.
Qed.

(** *** The userlist mutators *)

(** Unfolds a façade method down to the world it returns. *)
Ltac run_op :=
  unfold LoadMasterlist, LoadMasterlistWithPrelude, LoadUserlist,
    WriteUserMetadata, WriteMinimalList, SetUserGroups,
    SetPluginUserMetadata, DiscardPluginUserMetadata, DiscardAllUserMetadata,
    MetadataList_Load, MetadataList_LoadWithPrelude, MetadataList_Save,
    read_file, exists_, get_masterlist, get_userlist, set_masterlist,
    set_userlist, throw, mbind, Op_bind, mret, Op_ret;
  cbn beta iota delta [fst snd database disk masterlist_ userlist_].

(** C7.  Each of the four userlist mutators returns normally and leaves
    [masterlist_] as it was, so [GetGroups(false)] and
    [GetPluginMetadata(name, false, false)] answer as before. *)
Theorem userlist_mutators_frame
  (groups : list Group) (pluginMetadata : PluginMetadata) (plugin : string) :
  let frame (op : Op Document unit) :=
    ∀ w : World Document,
      (op w).2 = Ok ()
      ∧ masterlist_ (database (op w).1) = masterlist_ (database w)
      ∧ GetGroups (database (op w).1) false = GetGroups (database w) false
      ∧ ∀ name,
          GetPluginMetadata (database (op w).1) name false false
          = GetPluginMetadata (database w) name false false in
  frame (SetUserGroups groups)
  ∧ frame (SetPluginUserMetadata pluginMetadata)
  ∧ frame (DiscardPluginUserMetadata plugin)
  ∧ frame DiscardAllUserMetadata.
Proof.
  intros frame. unfold frame.
  split_and!; intros w; run_op; done.
Qed.

(** *** [WriteMinimalList] *)

Lemma minimalList_loop (plugins : list PluginMetadata) :
  ∀ minimalList,
    foldl (λ minimalList plugin, AddPlugin (minimalPlugin_of plugin) minimalList)
          minimalList plugins
    = mkMetadataList (Plugins minimalList ++ (minimalPlugin_of <$> plugins))
        (Groups minimalList) (BashTags minimalList) (Messages minimalList).
Proof.
  induction plugins as [|plugin plugins IH]; intros minimalList; simpl.
  - rewrite app_nil_r. by destruct minimalList.
  - rewrite IH. simpl. by rewrite <- app_assoc.
Qed.

(** C6.  When both checks pass and the path can be written, what
    [WriteMinimalList] saves is [minimalList_of masterlist_]: one entry per
    entry of [masterlist_.Plugins()], in order, each with that entry's name,
    tags and dirty info and every other field empty, in a list with no
    groups, Bash Tags or general messages. *)
Theorem WriteMinimalList_spec (w : World Document) (outputFile : string)
  (overwrite : bool) :
  let masterlist := masterlist_ (database w) in
  Plugins (minimalList_of masterlist) = minimalPlugin_of <$> Plugins masterlist
  ∧ length (Plugins (minimalList_of masterlist)) = length (Plugins masterlist)
  ∧ (∀ plugin,
       minimalPlugin_of plugin
       = mkPluginMetadata (GetName plugin) None [] [] [] []
           (GetTags plugin) (GetDirtyInfo plugin) [] [])
  ∧ Groups (minimalList_of masterlist) = []
  ∧ BashTags (minimalList_of masterlist) = []
  ∧ Messages (minimalList_of masterlist) = []
  ∧ (fs_exists (disk w) (parent_path outputFile) = true →
     fs_exists (disk w) outputFile && negb overwrite = false →
     outputFile ∉ directories (disk w) →
     WriteMinimalList outputFile overwrite w
     = (mkWorld (database w)
          (mkFileSystem (directories (disk w))
             (<[outputFile := emit (minimalList_of masterlist)]>
                (files (disk w)))),
        Ok ())).
Proof.
  intros masterlist. unfold minimalList_of.
  rewrite minimalList_loop. simpl.
  split_and!; try done.
  - by rewrite length_fmap.
  - intros Hdir Hfile Hwritable. run_op.
    rewrite Hdir. cbn [negb]. rewrite Hfile.
    rewrite bool_decide_eq_false_2 by done.
    unfold minimalList_of. by rewrite minimalList_loop.
Qed.

(** *** Loading *)

Lemma fs_exists_file (fs : FileSystem Document) (path : string) (document : Document) :
  files fs !! path = Some document → fs_exists fs path = true.
Proof.
  intros Hfile. unfold fs_exists. rewrite Hfile.
  rewrite (bool_decide_eq_true_2 (is_Some (Some document))) by eauto.
  apply orb_true_r.
Qed.

(** C3.  For each of the three loaders: a path that does not exist is a
    [FileAccessError]; a document the oracle rejects is a [ParseError];
    whenever the loader throws, the world (both stores included) is as
    before; and on success the targeted store is the loaded document and
    nothing else has changed. *)
Theorem load_spec (w : World Document) (path preludePath : string) :
  (* LoadMasterlist *)
  ((fs_exists (disk w) path = false →
    ∃ message, LoadMasterlist path w
               = (w, Throw (mkException FileAccessError message)))
   ∧ (∀ document,
        files (disk w) !! path = Some document → parse document = None →
        ∃ message, LoadMasterlist path w
                   = (w, Throw (mkException ParseError message)))
   ∧ (∀ e, (LoadMasterlist path w).2 = Throw e → (LoadMasterlist path w).1 = w)
   ∧ (∀ document loaded,
        files (disk w) !! path = Some document → parse document = Some loaded →
        LoadMasterlist path w
        = (mkWorld (mkApiDatabase loaded (userlist_ (database w))) (disk w),
           Ok ())))
  (* LoadMasterlistWithPrelude *)
  ∧ ((fs_exists (disk w) path = false ∨ fs_exists (disk w) preludePath = false →
      ∃ message, LoadMasterlistWithPrelude path preludePath w
                 = (w, Throw (mkException FileAccessError message)))
     ∧ (∀ document prelude,
          files (disk w) !! path = Some document →
          files (disk w) !! preludePath = Some prelude →
          parse_with_prelude document prelude = None →
          ∃ message, LoadMasterlistWithPrelude path preludePath w
                     = (w, Throw (mkException ParseError message)))
     ∧ (∀ e, (LoadMasterlistWithPrelude path preludePath w).2 = Throw e →
             (LoadMasterlistWithPrelude path preludePath w).1 = w)
     ∧ (∀ document prelude loaded,
          files (disk w) !! path = Some document →
          files (disk w) !! preludePath = Some prelude →
          parse_with_prelude document prelude = Some loaded →
          LoadMasterlistWithPrelude path preludePath w
          = (mkWorld (mkApiDatabase loaded (userlist_ (database w))) (disk w),
             Ok ())))
  (* LoadUserlist *)
  ∧ ((fs_exists (disk w) path = false →
      ∃ message, LoadUserlist path w
                 = (w, Throw (mkException FileAccessError message)))
     ∧ (∀ document,
          files (disk w) !! path = Some document → parse document = None →
          ∃ message, LoadUserlist path w
                     = (w, Throw (mkException ParseError message)))
     ∧ (∀ e, (LoadUserlist path w).2 = Throw e → (LoadUserlist path w).1 = w)
     ∧ (∀ document loaded,
          files (disk w) !! path = Some document → parse document = Some loaded →
          LoadUserlist path w
          = (mkWorld (mkApiDatabase (masterlist_ (database w)) loaded) (disk w),
             Ok ()))).
Proof.
  split_and!.
  - intros Hmissing. run_op. rewrite Hmissing. eauto.
  - intros document Hfile Hparse. run_op.
    rewrite (fs_exists_file _ _ _ Hfile), Hfile, Hparse. eauto.
  - intros e. run_op.
    destruct (fs_exists (disk w) path); [|done].
    destruct (files (disk w) !! path) as [document|]; [|done].
    by destruct (parse document).
  - intros document loaded Hfile Hparse. run_op.
    by rewrite (fs_exists_file _ _ _ Hfile), Hfile, Hparse.
  - intros Hmissing. run_op.
    destruct (fs_exists (disk w) path); [|eauto].
    destruct Hmissing as [Hmissing|Hmissing]; [done|].
    rewrite Hmissing. eauto.
  - intros document prelude Hfile Hprelude Hparse. run_op.
    rewrite (fs_exists_file _ _ _ Hfile), (fs_exists_file _ _ _ Hprelude).
    rewrite Hfile, Hprelude, Hparse. eauto.
  - intros e. run_op.
    destruct (fs_exists (disk w) path); [|done].
    destruct (fs_exists (disk w) preludePath); [|done].
    destruct (files (disk w) !! path) as [document|]; [|done].
    destruct (files (disk w) !! preludePath) as [prelude|]; [|done].
    by destruct (parse_with_prelude document prelude).
  - intros document prelude loaded Hfile Hprelude Hparse. run_op.
    rewrite (fs_exists_file _ _ _ Hfile), (fs_exists_file _ _ _ Hprelude).
    by rewrite Hfile, Hprelude, Hparse.
  - intros Hmissing. run_op. rewrite Hmissing. eauto.
  - intros document Hfile Hparse. run_op.
    rewrite (fs_exists_file _ _ _ Hfile), Hfile, Hparse. eauto.
  - intros e. run_op.
    destruct (fs_exists (disk w) path); [|done].
    destruct (files (disk w) !! path) as [document|]; [|done].
    by destruct (parse document).
  - intros document loaded Hfile Hparse. run_op.
    by rewrite (fs_exists_file _ _ _ Hfile), Hfile, Hparse.
Qed.

(** *** Writing *)

(** C4.  For [WriteUserMetadata] and [WriteMinimalList] alike: a missing
    parent directory is an [InvalidArgument]; an existing output file with
    [overwrite] false is a [FileAccessError] (the directory check comes
    first, so [InvalidArgument] when that fails too); in both cases the
    world is returned as it was, and whenever either method throws at all
    the disk is as before. *)
Theorem write_preconditions (w : World Document) (outputFile : string)
  (overwrite : bool) :
  let checked (write : string → bool → Op Document unit) :=
    (fs_exists (disk w) (parent_path outputFile) = false →
     ∃ message, write outputFile overwrite w
                = (w, Throw (mkException InvalidArgument message)))
    ∧ (fs_exists (disk w) outputFile = true → overwrite = false →
       ∃ message, write outputFile overwrite w
                  = (w, Throw (mkException
                                 (if fs_exists (disk w) (parent_path outputFile)
                                  then FileAccessError else InvalidArgument)
                                 message)))
    ∧ (∀ e, (write outputFile overwrite w).2 = Throw e →
            (write outputFile overwrite w).1 = w) in
  checked WriteUserMetadata ∧ checked WriteMinimalList.
Proof.
  intros checked. unfold checked.
  split_and!.
  - intros Hdir. run_op. rewrite Hdir. eauto.
  - intros Hfile ->. run_op.
    destruct (fs_exists (disk w) (parent_path outputFile)); [|eauto].
    cbn [negb]. rewrite Hfile. eauto.
  - intros e. run_op.
    destruct (fs_exists (disk w) (parent_path outputFile)); [|done].
    cbn [negb].
    destruct (fs_exists (disk w) outputFile && negb overwrite); [done|].
    by case_bool_decide.
  - intros Hdir. run_op. rewrite Hdir. eauto.
  - intros Hfile ->. run_op.
    destruct (fs_exists (disk w) (parent_path outputFile)); [|eauto].
    cbn [negb]. rewrite Hfile. eauto.
  - intros e. run_op.
    destruct (fs_exists (disk w) (parent_path outputFile)); [|done].
    cbn [negb].
    destruct (fs_exists (disk w) outputFile && negb overwrite); [done|].
    by case_bool_decide.
Qed.

(** *** Plugin metadata lookup *)

Section mergeVectors_as_union.
Context {T K : Type} `{EqOp T} (key : T → K).
Hypothesis eq_op_key : ∀ x y, eq_op x y = true ↔ key x = key y.

Lemma std_find_hit_key (range : list T) (value : T) :
  std_find_hit range value = true ↔ key value ∈ key <$> range.
Proof using eq_op_key.
  unfold std_find_hit. rewrite existsb_exists, list_elem_of_fmap.
  split.
  - intros (x & Hx & Heq). exists x.
    split; [symmetry; by apply eq_op_key|by apply list_elem_of_In].
  - intros (x & Heq & Hx). exists x.
    split; [by apply list_elem_of_In|by apply eq_op_key].
Qed.

Lemma mergeVectors_keys (first second : list T) (k : K) :
  k ∈ key <$> mergeVectors first second
  ↔ k ∈ key <$> first ∨ k ∈ key <$> second.
Proof using eq_op_key.
  rewrite mergeVectors_unfold, fmap_app, elem_of_app.
  split; intros [Hk|Hk]; [by left| |by left|].
  - right. apply list_elem_of_fmap in Hk as (x & -> & Hx).
    apply list_elem_of_In, filter_In in Hx as [Hx _].
    by apply list_elem_of_fmap_2, list_elem_of_In.
  - apply list_elem_of_fmap in Hk as (x & -> & Hx).
    destruct (std_find_hit first x) eqn:Hhit.
    + left. by apply std_find_hit_key.
    + right. apply list_elem_of_fmap_2, list_elem_of_In, filter_In.
      split; [by apply list_elem_of_In|by rewrite Hhit].
Qed.

Lemma mergeVectors_elem (first second : list T) (x : T) :
  x ∈ mergeVectors first second → x ∈ first ∨ x ∈ second.
Proof.
  rewrite mergeVectors_unfold, elem_of_app. intros [Hx|Hx]; [by left|right].
  apply list_elem_of_In, filter_In in Hx as [Hx _]. by apply list_elem_of_In.
Qed.
Lemma mergeVectors_elem_iff (first second : list T) (x : T) :
  x ∈ mergeVectors first second
  ↔ x ∈ first ∨ (x ∈ second ∧ key x ∉ key <$> first).
Proof using eq_op_key.
  rewrite mergeVectors_unfold, elem_of_app, <- std_find_hit_key.
  split; (intros [Hx|Hx]; [by left|right]).
  - apply list_elem_of_In, filter_In in Hx as [Hx Hmiss].
    apply negb_true_iff, not_true_iff_false in Hmiss.
    split; [by apply list_elem_of_In|done].
  - destruct Hx as [Hx Hmiss]. apply list_elem_of_In, filter_In.
    split; [by apply list_elem_of_In|].
    by apply negb_true_iff, not_true_iff_false.
Qed.

Lemma filter_NoDup_keys (f : T → bool) (l : list T) :
  NoDup (key <$> l) → NoDup (key <$> List.filter f l).
Proof.
  induction l as [|x l IH]; simpl; [done|].
  intros [Hx Hl]%NoDup_cons. destruct (f x); [|by apply IH].
  simpl. apply NoDup_cons. split; [|by apply IH].
  intros (y & Hkey & [Hy _]%list_elem_of_In%filter_In)%list_elem_of_fmap.
  apply Hx. rewrite Hkey. by apply list_elem_of_fmap_2, list_elem_of_In.
Qed.

(** One element per key in each operand, one element per key in the
    result. *)
Lemma mergeVectors_NoDup_keys (first second : list T) :
  NoDup (key <$> first) → NoDup (key <$> second) →
  NoDup (key <$> mergeVectors first second).
Proof using eq_op_key.
  intros Hfirst Hsecond. rewrite mergeVectors_unfold, fmap_app.
  apply NoDup_app. split_and!; [done| |by apply filter_NoDup_keys].
  intros k Hk (x & -> & [_ Hmiss]%list_elem_of_In%filter_In)%list_elem_of_fmap.
  apply negb_true_iff, not_true_iff_false in Hmiss.
  by apply Hmiss, std_find_hit_key.
Qed.

Lemma std_find_hit_app (range1 range2 : list T) (value : T) :
  std_find_hit (range1 ++ range2) value
  = std_find_hit range1 value || std_find_hit range2 value.
Proof. apply existsb_app. Qed.

(** Merging in a third vector: the grouping does not matter. *)
Lemma mergeVectors_assoc (a b c : list T) :
  mergeVectors (mergeVectors c b) a = mergeVectors c (mergeVectors b a).
Proof using eq_op_key.
  rewrite !mergeVectors_unfold, List.filter_app, <- app_assoc.
  do 2 f_equal.
  induction a as [|x a IH]; [done|]. simpl.
  rewrite std_find_hit_app.
  assert (std_find_hit c x
          || std_find_hit
               (List.filter (λ element, negb (std_find_hit c element)) b) x
          = std_find_hit c x || std_find_hit b x) as ->.
  { destruct (std_find_hit c x) eqn:Hc; [done|]. simpl.
    apply eq_true_iff_eq. unfold std_find_hit at 1 3.
    rewrite !existsb_exists. split.
    - intros (y & [Hy _]%filter_In & Heq). eauto.
    - intros (y & Hy & Heq). exists y. split; [|done].
      apply filter_In. split; [done|].
      apply negb_true_iff, not_true_iff_false. intros Hhit.
      apply std_find_hit_key in Hhit.
      apply eq_op_key in Heq. rewrite Heq in Hhit.
      apply std_find_hit_key in Hhit. congruence. }
  destruct (std_find_hit b x); simpl.
  - rewrite orb_true_r. simpl. apply IH.
  - rewrite orb_false_r.
    destruct (std_find_hit c x); simpl; [apply IH|by rewrite IH].
Qed.
End mergeVectors_as_union.

Lemma leibniz_eq_op_key {T : Type} `{EqDecision T} (x y : T) :
  bool_decide (x = y) = true ↔ id x = id y.
Proof. apply bool_decide_eq_true. Qed.

Lemma crc_eq_op_key (x y : PluginCleaningData) :
  eq_op x y = true ↔ PluginCleaningData_GetCRC x = PluginCleaningData_GetCRC y.
Proof. apply bool_decide_eq_true. Qed.

Lemma mergeVectors_set_union {T : Type} `{EqDecision T} (a b : list T) :
  set_union_of (mergeVectors (H := λ x y, bool_decide (x = y)) b a) a b.
Proof.
  split.
  - intros x.
    pose proof (mergeVectors_keys (H := λ x y, bool_decide (x = y)) id
                  leibniz_eq_op_key b a x) as Hkeys.
    rewrite !list_fmap_id in Hkeys. rewrite Hkeys. tauto.
  - intros Ha Hb.
    pose proof (mergeVectors_NoDup_keys (H := λ x y, bool_decide (x = y)) id
                  leibniz_eq_op_key b a) as Hkeys.
    rewrite !list_fmap_id in Hkeys. by apply Hkeys.
Qed.

Lemma mergeVectors_crc_keyed_union (a b : list PluginCleaningData) :
  crc_keyed_union_of (mergeVectors b a) a b.
Proof.
  split_and!.
  - intros crc.
    rewrite (mergeVectors_keys PluginCleaningData_GetCRC crc_eq_op_key). tauto.
  - intros entry.
    apply (mergeVectors_elem_iff PluginCleaningData_GetCRC crc_eq_op_key).
  - intros Ha Hb.
    by apply (mergeVectors_NoDup_keys PluginCleaningData_GetCRC crc_eq_op_key).
Qed.

(** [merge] is the merge §4.1 describes. *)
Lemma merge_as_specified (a b : PluginMetadata) :
  merged_as_specified a b (merge a b).
Proof.
  unfold merged_as_specified, merge. simpl.
  split_and!;
    first [ done
          | apply mergeVectors_set_union
          | apply mergeVectors_crc_keyed_union
          | by destruct (GetGroup b) ].
Qed.

Lemma merge_assoc (a b c : PluginMetadata) :
  merge (merge a b) c = merge a (merge b c).
Proof.
  unfold merge. simpl. f_equal.
  - by destruct (GetGroup c).
  - symmetry. apply (mergeVectors_assoc id leibniz_eq_op_key).
  - symmetry. apply (mergeVectors_assoc id leibniz_eq_op_key).
  - symmetry. apply (mergeVectors_assoc id leibniz_eq_op_key).
  - by rewrite app_assoc.
  - symmetry. apply (mergeVectors_assoc id leibniz_eq_op_key).
  - symmetry. apply (mergeVectors_assoc _ crc_eq_op_key).
  - symmetry. apply (mergeVectors_assoc _ crc_eq_op_key).
  - symmetry. apply (mergeVectors_assoc id leibniz_eq_op_key).
Qed.

Lemma merge_foldl (a b : PluginMetadata) (rest : list PluginMetadata) :
  merge a (foldl merge b rest) = foldl merge (merge a b) rest.
Proof.
  revert b. induction rest as [|c rest IH]; intros b; simpl; [done|].
  by rewrite IH, merge_assoc.
Qed.

(** Merging a sequence in order is merging its two halves in order and then
    their results. *)
Lemma merge_in_order_app (entries1 entries2 : list PluginMetadata) :
  merge_in_order (entries1 ++ entries2)
  = merge_optional (merge_in_order entries1) (merge_in_order entries2).
Proof.
  destruct entries1 as [|a entries1]; [done|].
  destruct entries2 as [|b entries2]; simpl.
  - by rewrite app_nil_r.
  - by rewrite foldl_app, merge_foldl.
Qed.

Lemma merge_in_order_None (entries : list PluginMetadata) :
  merge_in_order entries = None ↔ entries = [].
Proof. by destruct entries. Qed.

Lemma FindPlugin_None (self : MetadataList) (pluginName : string) :
  FindPlugin self pluginName = None
  ↔ regex_matches self pluginName = [] ∧ exact_match self pluginName = None.
Proof.
  unfold FindPlugin. rewrite merge_in_order_None.
  destruct (exact_match self pluginName); simpl.
  - split; [intros [_ Hnil]%app_eq_nil|intros [_ Hnone]]; discriminate.
  - rewrite app_nil_r. split; [intros Hnil; by split|by intros [Hnil _]].
Qed.

(** Taking both operands whole is no set-union: an element of both would
    be there twice, and a CRC of both would keep both entries. *)
Lemma concatenation_is_no_union :
  ¬ set_union_of (["Blank.esm"] ++ ["Blank.esm"]) ["Blank.esm"] ["Blank.esm"]
  ∧ ¬ crc_keyed_union_of
        ([mkPluginCleaningData 1 "masterlist" ""]
         ++ [mkPluginCleaningData 1 "userlist" ""])
        [mkPluginCleaningData 1 "masterlist" ""]
        [mkPluginCleaningData 1 "userlist" ""].
Proof.
  split.
  - intros [_ Hset].
    assert (NoDup ["Blank.esm"]) as Hone by (apply NoDup_singleton).
    specialize (Hset Hone Hone). simpl in Hset.
    apply NoDup_cons in Hset as [Hnot _]. apply Hnot. by left.
  - intros (_ & Hentries & _).
    destruct (proj1 (Hentries (mkPluginCleaningData 1 "masterlist" "")))
      as [Hb|[_ Hcrc]].
    + by left.
    + apply list_elem_of_singleton in Hb. discriminate.
    + apply Hcrc. by left.
Qed.

(** C1.  [GetPluginMetadata(plugin, true, false)] returns normally, and
    what it returns is the merge of the masterlist's effective metadata for
    [plugin] with the userlist's, the userlist overriding: that is the
    merge, in order, of the masterlist's regex matches, its exact match, the
    userlist's regex matches and its exact match.  With both sides present
    the result has the userlist group if set and else the masterlist group,
    the masterlist messages followed by the userlist messages, the
    set-union of each file, location and tag list (the elements of both, an
    element of both taken once), and the CRC-keyed union of dirty and of
    clean info (where both have an entry for a CRC, the userlist's).  It is
    none exactly when neither store has a regex or exact match. *)
Theorem GetPluginMetadata_spec (db : ApiDatabase) (plugin : string) :
  let effective (store : MetadataList) :=
    regex_matches store plugin ++ option_list (exact_match store plugin) in
  let masterlistMetadata := FindPlugin (masterlist_ db) plugin in
  let userMetadata := FindPlugin (userlist_ db) plugin in
  masterlistMetadata = merge_in_order (effective (masterlist_ db))
  ∧ userMetadata = merge_in_order (effective (userlist_ db))
  ∧ GetPluginMetadata db plugin true false
    = Ok (merge_optional masterlistMetadata userMetadata)
  ∧ GetPluginMetadata db plugin true false
    = Ok (merge_in_order (effective (masterlist_ db) ++ effective (userlist_ db)))
  ∧ (∀ a b, masterlistMetadata = Some a → userMetadata = Some b →
            GetPluginMetadata db plugin true false = Ok (Some (merge a b))
            ∧ merged_as_specified a b (merge a b))
  ∧ (GetPluginMetadata db plugin true false = Ok None
     ↔ (regex_matches (masterlist_ db) plugin = []
        ∧ exact_match (masterlist_ db) plugin = None)
       ∧ (regex_matches (userlist_ db) plugin = []
          ∧ exact_match (userlist_ db) plugin = None)).
Proof.
  intros effective masterlistMetadata userMetadata.
  assert (GetPluginMetadata db plugin true false
          = Ok (merge_optional masterlistMetadata userMetadata)) as Hget.
  { unfold GetPluginMetadata, MergeMetadata.
    fold masterlistMetadata userMetadata.
    by destruct masterlistMetadata, userMetadata. }
  split_and!; try done.
  - by rewrite Hget, merge_in_order_app.
  - intros a b Ha Hb. rewrite Hget, Ha, Hb.
    split; [done|apply merge_as_specified].
  - rewrite Hget, <- !FindPlugin_None.
    fold masterlistMetadata userMetadata.
    destruct masterlistMetadata, userMetadata; simpl;
      (split; [intros [=]|intros [[=] [=]]]; done).
Qed.

(** *** Replacing a plugin's user metadata *)









(** ** Further properties *)

(** *** [mergeVectors] *)

Section mergeVectors_more.
Context {T : Type} `{EqOp T}.

Lemma filter_sublist (f : T → bool) (l : list T) :
  List.filter f l `sublist_of` l.
Proof.
  induction l as [|x l IH]; simpl; [done|].
  destruct (f x); [by apply sublist_skip|by apply sublist_cons].
Qed.

Lemma filter_nil_iff (f : T → bool) (l : list T) :
  List.filter f l = [] ↔ ∀ x, x ∈ l → f x = false.
Proof.
  split; [|apply filter_all_hit].
  induction l as [|x l IH]; simpl; intros Hnil y Hy.
  - by apply elem_of_nil in Hy.
  - destruct (f x) eqn:Hx; [done|].
    apply elem_of_cons in Hy as [->|Hy]; [done|by apply IH].
Qed.

(** X1.  [mergeVectors] never drops an element of [first] and adds at most
    the elements of [second]: the result is at least as long as [first] and
    at most as long as both vectors together. *)
Theorem mergeVectors_length (first second : list T) :
  (length first ≤ length (mergeVectors first second))%nat
  ∧ (length (mergeVectors first second) ≤ length first + length second)%nat.
Proof.
  rewrite mergeVectors_unfold, length_app.
  pose proof (filter_length_le
                (λ element, negb (std_find_hit first element)) second).
  lia.
Qed.

(** X2.  Merging nothing in leaves [first] as it is, and merging into an
    empty vector copies [second] whole, repeated elements included, since
    only the original [first] is searched. *)
Theorem mergeVectors_empty (first second : list T) :
  mergeVectors first [] = first ∧ mergeVectors [] second = second.
Proof.
  split; [done|]. rewrite mergeVectors_unfold. simpl.
  induction second as [|x second IH]; simpl; [done|]. by rewrite IH.
Qed.

(** X3.  [mergeVectors first second] is [first] again exactly when
    [std::find] finds every element of [second] in [first]; with a reflexive
    [operator==], merging the same vector in a second time changes
    nothing. *)
Theorem mergeVectors_absorbs (first second : list T) :
  (mergeVectors first second = first
   ↔ ∀ x, x ∈ second → std_find_hit first x = true)
  ∧ ((∀ x : T, eq_op x x = true) →
     mergeVectors (mergeVectors first second) second
     = mergeVectors first second).
Proof.
  assert (∀ first second : list T,
            mergeVectors first second = first
            ↔ ∀ x, x ∈ second → std_find_hit first x = true) as Habsorb.
  { clear first second. intros first second. rewrite mergeVectors_unfold.
    rewrite <- (app_nil_r first) at 2.
    split.
    - intros Hnil%app_inv_head x Hx.
      apply negb_false_iff. by apply (proj1 (filter_nil_iff _ _) Hnil).
    - intros Hall. f_equal. apply filter_all_hit.
      intros x Hx. apply negb_false_iff. by apply Hall. }
  split; [apply Habsorb|].
  intros Hrefl. apply Habsorb. intros x Hx.
  rewrite mergeVectors_unfold. unfold std_find_hit at 1. rewrite existsb_app.
  fold (std_find_hit first x).
  destruct (std_find_hit first x) eqn:Hhit; [done|]. simpl.
  apply existsb_exists. exists x. split; [|apply Hrefl].
  apply filter_In. split; [by apply list_elem_of_In|by rewrite Hhit].
Qed.

(** X4.  When [operator==] is transitive, merging three vectors gives the
    same vector whichever merge is done first. *)
Theorem mergeVectors_associative (a b c : list T) :
  (∀ x y z : T, eq_op x y = true → eq_op y z = true → eq_op x z = true) →
  mergeVectors (mergeVectors a b) c = mergeVectors a (mergeVectors b c).
Proof.
  intros Htrans.
  rewrite !mergeVectors_unfold, List.filter_app, <- app_assoc.
  do 2 f_equal.
  induction c as [|x c IH]; [done|]. simpl.
  unfold std_find_hit at 1. rewrite existsb_app.
  fold (std_find_hit a x).
  assert (std_find_hit a x
          || existsb (λ y, eq_op y x)
               (List.filter (λ element, negb (std_find_hit a element)) b)
          = std_find_hit a x || std_find_hit b x) as ->.
  { destruct (std_find_hit a x) eqn:Ha; [done|]. simpl.
    apply eq_true_iff_eq. unfold std_find_hit.
    rewrite !existsb_exists. split.
    - intros (y & [Hy _]%filter_In & Heq). eauto.
    - intros (y & Hy & Heq). exists y. split; [|done].
      apply filter_In. split; [done|].
      apply negb_true_iff, not_true_iff_false. intros Hhit.
      apply existsb_exists in Hhit as (z & Hz & Hzy).
      assert (std_find_hit a x = true); [|congruence].
      apply existsb_exists. exists z. split; [done|]. by eapply Htrans. }
  destruct (std_find_hit b x); simpl.
  - rewrite orb_true_r. simpl. apply IH.
  - rewrite orb_false_r.
    destruct (std_find_hit a x); simpl; [apply IH|by rewrite IH].
Qed.

(** X5.  When [operator==] holds exactly of equal elements, the result has
    the elements of [first] and of [second] and no others. *)
Theorem mergeVectors_elements (first second : list T) (x : T) :
  (∀ y z : T, eq_op y z = true ↔ y = z) →
  x ∈ mergeVectors first second ↔ x ∈ first ∨ x ∈ second.
Proof.
  intros Heq.
  pose proof (mergeVectors_keys id Heq first second x) as Hkeys.
  by rewrite !list_fmap_id in Hkeys.
Qed.

(** X6.  When [operator==] holds exactly of equal elements, merging two
    vectors without repeated elements gives a vector without repeated
    elements. *)
Theorem mergeVectors_NoDup (first second : list T) :
  (∀ y z : T, eq_op y z = true ↔ y = z) →
  NoDup first → NoDup second → NoDup (mergeVectors first second).
Proof.
  intros Heq Hfirst Hsecond. rewrite mergeVectors_unfold.
  apply NoDup_app. split_and!; [done| |].
  - intros x Hx [_ Hmiss]%list_elem_of_In%filter_In.
    apply negb_true_iff, not_true_iff_false in Hmiss. apply Hmiss.
    apply existsb_exists. exists x.
    split; [by apply list_elem_of_In|by apply Heq].
  - eapply sublist_NoDup; [done|apply filter_sublist].
Qed.
End mergeVectors_more.

(** *** [MergeGroups] *)

(** What the loop leaves of the merged and the new groups, as one list. *)
Lemma MergeGroups_loop_result (masterlistGroups userGroups : list Group) :
  ∃ mergedGroups newGroups,
    foldl MergeGroups_step (masterlistGroups, []) userGroups
    = (mergedGroups, newGroups)
    ∧ MergeGroups masterlistGroups userGroups = mergedGroups ++ newGroups
    ∧ length mergedGroups = length masterlistGroups.
Proof.
  unfold MergeGroups.
  pose proof (MergeGroups_loop_names userGroups masterlistGroups []) as [Hnames _].
  destruct (foldl MergeGroups_step (masterlistGroups, []) userGroups)
    as [mergedGroups newGroups].
  exists mergedGroups, newGroups. split_and!; [done|done|].
  simpl in Hnames.
  by rewrite <- (length_fmap Group_GetName mergedGroups), Hnames, length_fmap.
Qed.

(** A lookup among the masterlist positions is a lookup in what the loop
    made of [mergedGroups]. *)
Lemma MergeGroups_lookup_merged (masterlistGroups userGroups : list Group)
  (i : nat) (g : Group) :
  masterlistGroups !! i = Some g →
  MergeGroups masterlistGroups userGroups !! i
  = (foldl MergeGroups_step (masterlistGroups, []) userGroups).1 !! i.
Proof.
  intros Hi.
  destruct (MergeGroups_loop_result masterlistGroups userGroups)
    as (mergedGroups & newGroups & Hloop & -> & Hlen).
  rewrite Hloop. simpl. apply lookup_app_l.
  rewrite Hlen. by eapply lookup_lt_Some.
Qed.

(** X7.  The names in the result are the masterlist's names, in masterlist
    order, followed by the names of the user groups the masterlist does not
    name, in userlist order: no masterlist group is renamed, moved or
    removed. *)
Theorem MergeGroups_names (masterlistGroups userGroups : list Group) :
  Group_GetName <$> MergeGroups masterlistGroups userGroups
  = (Group_GetName <$> masterlistGroups)
    ++ (Group_GetName
          <$> filter (λ u, Group_GetName u ∉ Group_GetName <$> masterlistGroups)
                     userGroups).
Proof.
  unfold MergeGroups.
  pose proof (MergeGroups_loop_names userGroups masterlistGroups [])
    as [Hnames Hnew].
  destruct (foldl MergeGroups_step (masterlistGroups, []) userGroups)
    as [mergedGroups newGroups].
  simpl in Hnames, Hnew. by rewrite fmap_app, Hnames, Hnew.
Qed.

(** X8.  With no user groups the result is the masterlist's groups, and with
    no masterlist groups it is the user groups, each of them kept even when
    names repeat among them. *)
Theorem MergeGroups_empty (groups : list Group) :
  MergeGroups groups [] = groups ∧ MergeGroups [] groups = groups.
Proof.
  split; [unfold MergeGroups; simpl; apply app_nil_r|].
  assert (∀ l : list Group,
            filter (λ u, Group_GetName u ∉ Group_GetName <$> []) l = l) as Hall.
  { induction l as [|u l IH]; [done|].
    rewrite filter_cons_True; [by rewrite IH|]. apply not_elem_of_nil. }
  destruct (MergeGroups_loop_result [] groups)
    as (mergedGroups & newGroups & Hloop & -> & Hlen).
  pose proof (MergeGroups_loop_names groups [] []) as [_ Hnew].
  rewrite Hloop in Hnew. simpl in Hnew.
  apply nil_length_inv in Hlen as ->. by rewrite Hnew, Hall.
Qed.

Lemma MergeGroups_loop_keeps (userGroups : list Group) :
  ∀ mergedGroups newGroups i g,
    mergedGroups !! i = Some g →
    ∃ g', (foldl MergeGroups_step (mergedGroups, newGroups) userGroups).1 !! i
          = Some g'
          ∧ Group_GetName g' = Group_GetName g
          ∧ Group_GetAfterGroups g `prefix_of` Group_GetAfterGroups g'.
Proof.
  induction userGroups as [|u userGroups IH];
    intros mergedGroups newGroups i g Hi; [by exists g|].
  cbn [foldl]. unfold MergeGroups_step at 2.
  destruct (list_find _ mergedGroups) as [[j g0]|] eqn:Hfind; [|by apply IH].
  apply list_find_Some in Hfind as (Hj & Hname & _).
  destruct (decide (j = i)) as [->|Hne].
  - rewrite Hi in Hj. injection Hj as <-.
    set (g1 := mkGroup _ _ _).
    destruct (IH (<[i:=g1]> mergedGroups) newGroups i g1)
      as (g' & Hg' & Hname' & Hprefix).
    { apply list_lookup_insert_eq. by eapply lookup_lt_Some. }
    exists g'. split_and!; [done|by rewrite Hname'|].
    etrans; [|exact Hprefix]. by apply prefix_app_r.
  - apply IH. by rewrite list_lookup_insert_ne.
Qed.

(** X9.  Whatever the user groups are, every masterlist group is still at
    its position under its name, and its after-groups are still there, in
    order, at the head of the merged after-groups. *)
Theorem MergeGroups_keeps_masterlist (masterlistGroups userGroups : list Group)
  (i : nat) (g : Group) :
  masterlistGroups !! i = Some g →
  ∃ g', MergeGroups masterlistGroups userGroups !! i = Some g'
        ∧ Group_GetName g' = Group_GetName g
        ∧ Group_GetAfterGroups g `prefix_of` Group_GetAfterGroups g'.
Proof.
  intros Hi. rewrite (MergeGroups_lookup_merged _ _ _ _ Hi).
  by apply MergeGroups_loop_keeps.
Qed.

Lemma MergeGroups_loop_accumulates (userGroups : list Group) :
  ∀ mergedGroups newGroups i g,
    mergedGroups !! i = Some g →
    (∀ j g', j < i → mergedGroups !! j = Some g' →
             Group_GetName g' ≠ Group_GetName g) →
    (foldl MergeGroups_step (mergedGroups, newGroups) userGroups).1 !! i
    = Some (mkGroup (Group_GetName g)
              (Group_GetAfterGroups g
               ++ concat (Group_GetAfterGroups
                            <$> filter (λ u, Group_GetName u = Group_GetName g)
                                       userGroups))
              (foldl (λ description u,
                        if bool_decide (Group_GetDescription u = "")
                        then description else Group_GetDescription u)
                     (Group_GetDescription g)
                     (filter (λ u, Group_GetName u = Group_GetName g)
                             userGroups))).
Proof.
  induction userGroups as [|u userGroups IH];
    intros mergedGroups newGroups i g Hi Hfirst.
  { simpl. rewrite app_nil_r. by destruct g. }
  cbn [foldl]. unfold MergeGroups_step at 2.
  destruct (decide (Group_GetName u = Group_GetName g)) as [Hname|Hname].
  - assert (list_find (λ existingGroup,
                         Group_GetName existingGroup = Group_GetName u)
                      mergedGroups = Some (i, g)) as ->.
    { apply list_find_Some. split_and!; [done|done|].
      intros j g' Hj Hlt. rewrite Hname. by eapply Hfirst. }
    set (g1 := mkGroup _ _ _).
    rewrite (IH (<[i:=g1]> mergedGroups) newGroups i g1).
    + rewrite filter_cons_True by done. subst g1. simpl.
      rewrite Hname, <- app_assoc. done.
    + apply list_lookup_insert_eq. by eapply lookup_lt_Some.
    + intros j g' Hlt Hj. rewrite list_lookup_insert_ne in Hj by lia.
      subst g1. simpl. rewrite Hname. by eapply Hfirst.
  - rewrite filter_cons_False by done.
    destruct (list_find _ mergedGroups) as [[j g0]|] eqn:Hfind;
      [|by apply IH].
    apply list_find_Some in Hfind as (Hj & Hname0 & _).
    assert (j ≠ i) as Hne.
    { intros ->. rewrite Hi in Hj. injection Hj as <-. done. }
    apply IH; [by rewrite list_lookup_insert_ne|].
    intros j' g' Hlt Hj'.
    destruct (decide (j = j')) as [<-|Hne'].
    + rewrite list_lookup_insert_eq in Hj' by (by eapply lookup_lt_Some).
      injection Hj' as <-. done.
    + rewrite list_lookup_insert_ne in Hj' by done. by eapply Hfirst.
Qed.

(** X10.  When several user groups bear the name of a masterlist group, the
    first masterlist group of that name takes them all in, in userlist order:
    its after-groups are followed by the after-groups of each, and its
    description is that of the last of them that has one, or its own. *)
Theorem MergeGroups_accumulates (masterlistGroups userGroups : list Group)
  (i : nat) (g : Group) :
  masterlistGroups !! i = Some g →
  (∀ j g', j < i → masterlistGroups !! j = Some g' →
           Group_GetName g' ≠ Group_GetName g) →
  let sameName :=
    filter (λ u, Group_GetName u = Group_GetName g) userGroups in
  MergeGroups masterlistGroups userGroups !! i
  = Some (mkGroup (Group_GetName g)
            (Group_GetAfterGroups g ++ concat (Group_GetAfterGroups <$> sameName))
            (foldl (λ description u,
                      if bool_decide (Group_GetDescription u = "")
                      then description else Group_GetDescription u)
                   (Group_GetDescription g) sameName)).
Proof.
  intros Hi Hfirst sameName. rewrite (MergeGroups_lookup_merged _ _ _ _ Hi).
  by apply MergeGroups_loop_accumulates.
Qed.

Lemma MergeGroups_loop_later (userGroups : list Group) :
  ∀ mergedGroups newGroups i j g g',
    i < j → mergedGroups !! i = Some g → mergedGroups !! j = Some g' →
    Group_GetName g = Group_GetName g' →
    (foldl MergeGroups_step (mergedGroups, newGroups) userGroups).1 !! j = Some g'.
Proof.
  induction userGroups as [|u userGroups IH];
    intros mergedGroups newGroups i j g g' Hlt Hi Hj Hname; [done|].
  cbn [foldl]. unfold MergeGroups_step at 2.
  destruct (list_find _ mergedGroups) as [[k gk]|] eqn:Hfind;
    [|by eapply IH].
  apply list_find_Some in Hfind as (Hk & Hnamek & Hfirst).
  assert (k ≠ j) as Hne.
  { intros ->. rewrite Hj in Hk. injection Hk as <-.
    apply (Hfirst i g Hi Hlt). congruence. }
  set (g1 := mkGroup _ _ _).
  destruct (decide (k = i)) as [->|Hne'].
  - rewrite Hi in Hk. injection Hk as <-.
    apply (IH _ _ i j g1 g' Hlt).
    + apply list_lookup_insert_eq. by eapply lookup_lt_Some.
    + by rewrite list_lookup_insert_ne.
    + subst g1. simpl. congruence.
  - apply (IH _ _ i j g g' Hlt); [| |done];
      by rewrite list_lookup_insert_ne.
Qed.

(** X11.  When the masterlist itself names a group twice, only the first
    group of that name takes part in the merge: a later one comes out as it
    went in. *)
Theorem MergeGroups_later_duplicate (masterlistGroups userGroups : list Group)
  (i j : nat) (g g' : Group) :
  i < j → masterlistGroups !! i = Some g → masterlistGroups !! j = Some g' →
  Group_GetName g = Group_GetName g' →
  MergeGroups masterlistGroups userGroups !! j = Some g'.
Proof.
  intros Hlt Hi Hj Hname. rewrite (MergeGroups_lookup_merged _ _ _ _ Hj).
  by eapply MergeGroups_loop_later.
Qed.

(** X12.  When no name repeats within the masterlist's groups nor within the
    user groups, no name repeats in the merged list. *)
Theorem MergeGroups_NoDup_names (masterlistGroups userGroups : list Group) :
  NoDup (Group_GetName <$> masterlistGroups) →
  NoDup (Group_GetName <$> userGroups) →
  NoDup (Group_GetName <$> MergeGroups masterlistGroups userGroups).
Proof.
  intros HM HU.
  pose proof (MergeGroups_loop_names userGroups masterlistGroups [])
    as [Hnames Hnew].
  destruct (MergeGroups_loop_result masterlistGroups userGroups)
    as (mergedGroups & newGroups & Hloop & -> & _).
  rewrite Hloop in Hnames, Hnew. simpl in Hnames, Hnew.
  rewrite fmap_app, Hnames, Hnew.
  apply NoDup_app. split_and!; [done| |].
  - intros name Hname (u & -> & Hu)%list_elem_of_fmap.
    by apply list_elem_of_filter in Hu as [Hnot _].
  - eapply sublist_NoDup; [exact HU|].
    apply fmap_sublist, sublist_filter.
Qed.

(** *** [GetGeneralMessages] *)

(** The vector before any erasing: the insert of the userlist's messages is
    skipped only when there is nothing to insert. *)
Lemma general_messages_joined (db : ApiDatabase) :
  (if bool_decide (Messages (userlist_ db) = [])
   then Messages (masterlist_ db)
   else Messages (masterlist_ db) ++ Messages (userlist_ db))
  = Messages (masterlist_ db) ++ Messages (userlist_ db).
Proof.
  case_bool_decide as Hempty; [|done]. by rewrite Hempty, app_nil_r.
Qed.

(** The erasing loop, from any position: what is behind the iterator stays,
    what is ahead is walked once. *)
Lemma GetGeneralMessages_loop_kept (turns : nat) :
  ∀ (messages : list Message) (it : nat) (evaluator : ConditionEvaluator),
    (length messages - it ≤ turns)%nat →
    GetGeneralMessages_loop turns messages it evaluator
    = match kept_messages (drop it messages) evaluator with
      | (evaluator, Ok kept) => (evaluator, Ok (take it messages ++ kept))
      | (evaluator, Throw e) => (evaluator, Throw e)
      end.
Proof.
  induction turns as [|turns IH]; intros messages it evaluator Hturns.
  - simpl. rewrite drop_ge, take_ge by lia. simpl. by rewrite app_nil_r.
  - cbn [GetGeneralMessages_loop].
    destruct (messages !! it) as [message|] eqn:Hit.
    + rewrite (drop_S _ _ _ Hit). cbn [kept_messages].
      pose proof (lookup_lt_Some _ _ _ Hit) as Hlt.
      destruct (ConditionEvaluator_Evaluate _ evaluator)
        as [evaluator1 [[|]|e]]; [| |done].
      * rewrite IH by lia.
        destruct (kept_messages _ evaluator1) as [evaluator2 [kept|e]]; [|done].
        by rewrite (take_S_r _ _ _ Hit), <- app_assoc.
      * rewrite IH by (rewrite length_delete by eauto; lia).
        rewrite delete_take_drop.
        rewrite drop_app_length', take_app_length'
          by (rewrite length_take; lia).
        by destruct (kept_messages _ evaluator1) as [evaluator2 [kept|e]].
    + apply lookup_ge_None in Hit.
      rewrite drop_ge, take_ge by lia. simpl. by rewrite app_nil_r.
Qed.

Lemma GetGeneralMessages_walk (db : ApiDatabase) (evaluator : ConditionEvaluator) :
  GetGeneralMessages db true evaluator
  = kept_messages (Messages (masterlist_ db) ++ Messages (userlist_ db))
      (ClearConditionCache evaluator).
Proof.
  unfold GetGeneralMessages. rewrite general_messages_joined.
  rewrite GetGeneralMessages_loop_kept by lia. simpl.
  by destruct (kept_messages _ _) as [evaluator' [kept|e]].
Qed.

Lemma kept_messages_sublist (messages : list Message) :
  ∀ evaluator evaluator' kept,
    kept_messages messages evaluator = (evaluator', Ok kept) →
    kept `sublist_of` messages.
Proof.
  induction messages as [|message messages IH];
    intros evaluator evaluator' kept Hkept; simpl in Hkept.
  - by injection Hkept as _ <-.
  - destruct (ConditionEvaluator_Evaluate _ evaluator)
      as [evaluator1 [holds|e]]; [|done].
    destruct (kept_messages messages evaluator1)
      as [evaluator2 [kept'|e]] eqn:Hrest; [|done].
    injection Hkept as _ <-. apply IH in Hrest.
    destruct holds; [by apply sublist_skip|by apply sublist_cons].
Qed.

Lemma kept_messages_filter (consistent : ConditionEvaluator → Prop)
  (holds : string → bool) (messages : list Message) :
  (∀ message state,
     message ∈ messages → consistent state →
     (ConditionEvaluator_Evaluate (Message_GetCondition message) state).2
     = Ok (holds (Message_GetCondition message))
     ∧ consistent
         (ConditionEvaluator_Evaluate (Message_GetCondition message) state).1) →
  ∀ evaluator,
    consistent evaluator →
    (kept_messages messages evaluator).2
    = Ok (List.filter (λ message, holds (Message_GetCondition message)) messages).
Proof.
  induction messages as [|message messages IH]; intros Hholds evaluator Hgood;
    simpl; [done|].
  destruct (Hholds message evaluator ltac:(left) Hgood) as [Hhere Hnext].
  destruct (ConditionEvaluator_Evaluate _ evaluator) as [evaluator1 outcome].
  simpl in Hhere, Hnext. subst outcome.
  pose proof (IH (λ m e Hm, Hholds m e ltac:(by right)) evaluator1 Hnext)
    as Hrest.
  destruct (kept_messages messages evaluator1) as [evaluator2 outcome].
  simpl in Hrest. subst outcome. simpl.
  by destruct (holds (Message_GetCondition message)).
Qed.

Lemma kept_messages_throw (consistent : ConditionEvaluator → Prop)
  (before after : list Message) (message : Message) (e : Exception) :
  (∀ earlier state,
     earlier ∈ before → consistent state →
     (∃ holds,
        (ConditionEvaluator_Evaluate (Message_GetCondition earlier) state).2
        = Ok holds)
     ∧ consistent
         (ConditionEvaluator_Evaluate (Message_GetCondition earlier) state).1) →
  (∀ state,
     consistent state →
     (ConditionEvaluator_Evaluate (Message_GetCondition message) state).2
     = Throw e) →
  ∀ evaluator,
    consistent evaluator →
    (kept_messages (before ++ message :: after) evaluator).2 = Throw e.
Proof.
  intros Hbefore Hthrow.
  induction before as [|earlier before IH]; intros evaluator Hgood; simpl.
  - pose proof (Hthrow evaluator Hgood) as Hhere.
    destruct (ConditionEvaluator_Evaluate _ evaluator) as [evaluator1 outcome].
    simpl in Hhere. by subst outcome.
  - destruct (Hbefore earlier evaluator ltac:(left) Hgood)
      as [[holds Hhere] Hnext].
    destruct (ConditionEvaluator_Evaluate _ evaluator) as [evaluator1 outcome].
    simpl in Hhere, Hnext. subst outcome.
    pose proof (IH (λ m ev Hm, Hbefore m ev ltac:(by right)) evaluator1 Hnext)
      as Hrest.
    destruct (kept_messages _ evaluator1) as [evaluator2 outcome].
    simpl in Hrest. by subst outcome.
Qed.

(** X13.  Without evaluation [GetGeneralMessages] returns the masterlist's
    messages followed by the userlist's, conditions and all, and does not
    touch the evaluator: its cache is not cleared. *)
Theorem GetGeneralMessages_unevaluated (db : ApiDatabase)
  (evaluator : ConditionEvaluator) :
  GetGeneralMessages db false evaluator
  = (evaluator, Ok (Messages (masterlist_ db) ++ Messages (userlist_ db))).
Proof. unfold GetGeneralMessages. by rewrite general_messages_joined. Qed.

(** X14.  With evaluation the erasing loop comes to this: the cache is
    cleared once, before anything is evaluated; then the condition of each
    message, masterlist first, is evaluated once, in order, each evaluation
    starting from the state the one before left; the loop needs no more
    turns than there are messages. *)
Theorem GetGeneralMessages_in_order (db : ApiDatabase)
  (evaluator : ConditionEvaluator) :
  GetGeneralMessages db true evaluator
  = kept_messages (Messages (masterlist_ db) ++ Messages (userlist_ db))
      (ClearConditionCache evaluator).
Proof. apply GetGeneralMessages_walk. Qed.

(** X15.  Whatever the evaluator does, the messages returned are some of
    the masterlist's followed by some of the userlist's, in their order:
    none is added, repeated or moved. *)
Theorem GetGeneralMessages_sublist (db : ApiDatabase)
  (evaluator evaluator' : ConditionEvaluator) (messages : list Message) :
  GetGeneralMessages db true evaluator = (evaluator', Ok messages) →
  messages `sublist_of` Messages (masterlist_ db) ++ Messages (userlist_ db).
Proof.
  rewrite GetGeneralMessages_walk. apply kept_messages_sublist.
Qed.

(** X16.  Take any property of the evaluator's state that holds once the
    cache is cleared and that evaluating a message's condition keeps (for a
    cache: that it holds no wrong answer).  When in every such state the
    evaluator answers [holds c] for the condition [c] of every message,
    the messages returned are exactly those whose condition holds, in
    order. *)
Theorem GetGeneralMessages_filter (db : ApiDatabase)
  (evaluator : ConditionEvaluator) (consistent : ConditionEvaluator → Prop)
  (holds : string → bool) :
  consistent (ClearConditionCache evaluator) →
  (∀ message state,
     message ∈ Messages (masterlist_ db) ++ Messages (userlist_ db) →
     consistent state →
     (ConditionEvaluator_Evaluate (Message_GetCondition message) state).2
     = Ok (holds (Message_GetCondition message))
     ∧ consistent
         (ConditionEvaluator_Evaluate (Message_GetCondition message) state).1) →
  (GetGeneralMessages db true evaluator).2
  = Ok (List.filter (λ message, holds (Message_GetCondition message))
          (Messages (masterlist_ db) ++ Messages (userlist_ db))).
Proof.
  intros Hcleared Hholds. rewrite GetGeneralMessages_walk.
  by apply (kept_messages_filter consistent).
Qed.

(** X17.  With such a property of the state again: when the condition of
    some message makes the evaluator throw and the conditions of the
    messages before it are answered, [GetGeneralMessages] throws that
    exception, whatever comes after. *)
Theorem GetGeneralMessages_throws (db : ApiDatabase)
  (evaluator : ConditionEvaluator) (consistent : ConditionEvaluator → Prop)
  (before after : list Message) (message : Message) (e : Exception) :
  Messages (masterlist_ db) ++ Messages (userlist_ db)
  = before ++ message :: after →
  consistent (ClearConditionCache evaluator) →
  (∀ earlier state,
     earlier ∈ before → consistent state →
     (∃ holds,
        (ConditionEvaluator_Evaluate (Message_GetCondition earlier) state).2
        = Ok holds)
     ∧ consistent
         (ConditionEvaluator_Evaluate (Message_GetCondition earlier) state).1) →
  (∀ state,
     consistent state →
     (ConditionEvaluator_Evaluate (Message_GetCondition message) state).2
     = Throw e) →
  (GetGeneralMessages db true evaluator).2 = Throw e.
Proof.
  intros Hsplit Hcleared Hbefore Hthrow.
  rewrite GetGeneralMessages_walk, Hsplit.
  by apply (kept_messages_throw consistent).
Qed.

(** *** [GetPluginMetadata] and [GetPluginUserMetadata] *)

(** X18.  Conditions are evaluated last, on what the lookup without
    evaluation returns: on the merged metadata when user metadata is
    included.  When there is no metadata the evaluator is not asked, and
    what the evaluator throws is thrown on. *)
Theorem GetPluginMetadata_evaluated (db : ApiDatabase) (plugin : string)
  (includeUserMetadata : bool) :
  let evaluated (unevaluated : Result (option PluginMetadata)) :=
    match unevaluated with
    | Ok (Some metadata) =>
        match EvaluateAll metadata with
        | Ok evaluated => Ok (Some evaluated)
        | Throw e => Throw e
        end
    | Ok None => Ok None
    | Throw e => Throw e
    end in
  GetPluginMetadata db plugin includeUserMetadata true
  = evaluated (GetPluginMetadata db plugin includeUserMetadata false)
  ∧ GetPluginUserMetadata db plugin true
    = evaluated (GetPluginUserMetadata db plugin false).
Proof.
  intros evaluated. unfold GetPluginMetadata, GetPluginUserMetadata.
  split.
  - destruct includeUserMetadata;
      destruct (FindPlugin (masterlist_ db) plugin);
      try destruct (FindPlugin (userlist_ db) plugin); done.
  - by destruct (FindPlugin (userlist_ db) plugin).
Qed.

(** X19.  When the userlist has no metadata for a plugin, including user
    metadata changes nothing; when the masterlist has none, the lookup that
    includes user metadata returns the plugin's user metadata. *)
Theorem GetPluginMetadata_one_store (db : ApiDatabase) (plugin : string)
  (evaluateConditions : bool) :
  (FindPlugin (userlist_ db) plugin = None →
   GetPluginMetadata db plugin true evaluateConditions
   = GetPluginMetadata db plugin false evaluateConditions)
  ∧ (FindPlugin (masterlist_ db) plugin = None →
     GetPluginMetadata db plugin true evaluateConditions
     = GetPluginUserMetadata db plugin evaluateConditions).
Proof.
  unfold GetPluginMetadata, GetPluginUserMetadata.
  split; intros ->; [done|].
  by destruct (FindPlugin (userlist_ db) plugin).
Qed.

(** *** The loaders *)

(** X20.  Whether they return or throw, [LoadMasterlist] and
    [LoadMasterlistWithPrelude] leave the userlist and the disk as they
    were, and [LoadUserlist] leaves the masterlist and the disk as they
    were. *)
Theorem loaders_frame (w : World Document) (path preludePath : string) :
  (userlist_ (database (LoadMasterlist path w).1) = userlist_ (database w)
   ∧ disk (LoadMasterlist path w).1 = disk w)
  ∧ (userlist_ (database (LoadMasterlistWithPrelude path preludePath w).1)
     = userlist_ (database w)
     ∧ disk (LoadMasterlistWithPrelude path preludePath w).1 = disk w)
  ∧ (masterlist_ (database (LoadUserlist path w).1) = masterlist_ (database w)
     ∧ disk (LoadUserlist path w).1 = disk w).
Proof.
  split_and!; run_op;
    destruct (fs_exists (disk w) path); try done;
    try (destruct (fs_exists (disk w) preludePath); [|done]);
    destruct (files (disk w) !! path) as [document|]; try done;
    try (destruct (files (disk w) !! preludePath) as [prelude|]; [|done]);
    try (by destruct (parse document));
    by destruct (parse_with_prelude document prelude).
Qed.

(** A loader returns normally exactly when the file is there and the oracle
    accepts it. *)
Lemma LoadMasterlist_Ok_iff (w w' : World Document) (path : string) :
  LoadMasterlist path w = (w', Ok ())
  ↔ ∃ document loaded,
      files (disk w) !! path = Some document ∧ parse document = Some loaded
      ∧ w' = mkWorld (mkApiDatabase loaded (userlist_ (database w))) (disk w).
Proof.
  split.
  - run_op.
    destruct (fs_exists (disk w) path); [|done].
    destruct (files (disk w) !! path) as [document|] eqn:Hfile; [|done].
    destruct (parse document) as [loaded|] eqn:Hparse; [|done].
    intros [= <-]. by exists document, loaded.
  - intros (document & loaded & Hfile & Hparse & ->). run_op.
    by rewrite (fs_exists_file _ _ _ Hfile), Hfile, Hparse.
Qed.

Lemma LoadUserlist_Ok_iff (w w' : World Document) (path : string) :
  LoadUserlist path w = (w', Ok ())
  ↔ ∃ document loaded,
      files (disk w) !! path = Some document ∧ parse document = Some loaded
      ∧ w' = mkWorld (mkApiDatabase (masterlist_ (database w)) loaded) (disk w).
Proof.
  split.
  - run_op.
    destruct (fs_exists (disk w) path); [|done].
    destruct (files (disk w) !! path) as [document|] eqn:Hfile; [|done].
    destruct (parse document) as [loaded|] eqn:Hparse; [|done].
    intros [= <-]. by exists document, loaded.
  - intros (document & loaded & Hfile & Hparse & ->). run_op.
    by rewrite (fs_exists_file _ _ _ Hfile), Hfile, Hparse.
Qed.

(** X21.  A masterlist load and a userlist load that both succeed can be
    done in either order: the other order succeeds as well and ends in the
    same world. *)
Theorem loads_commute (w afterMasterlist afterBoth : World Document)
  (masterlistPath userlistPath : string) :
  LoadMasterlist masterlistPath w = (afterMasterlist, Ok ()) →
  LoadUserlist userlistPath afterMasterlist = (afterBoth, Ok ()) →
  ∃ afterUserlist,
    LoadUserlist userlistPath w = (afterUserlist, Ok ())
    ∧ LoadMasterlist masterlistPath afterUserlist = (afterBoth, Ok ()).
Proof.
  intros (document & masterlist & Hfile & Hparse & ->)%LoadMasterlist_Ok_iff.
  intros (document' & userlist & Hfile' & Hparse' & ->)%LoadUserlist_Ok_iff.
  simpl in Hfile'.
  eexists. split.
  - apply LoadUserlist_Ok_iff. by exists document', userlist.
  - apply LoadMasterlist_Ok_iff. by exists document, masterlist.
Qed.

(** X22.  The exception for a missing path names that path, and
    [LoadMasterlistWithPrelude] looks for the masterlist first: it names the
    prelude only when the masterlist is there. *)
Theorem loaders_name_the_missing_path (w : World Document)
  (path preludePath : string) :
  (fs_exists (disk w) path = false →
   LoadMasterlist path w
   = (w, Throw (mkException FileAccessError
                  ("The given masterlist path does not exist: " +:+ path)))
   ∧ LoadMasterlistWithPrelude path preludePath w
     = (w, Throw (mkException FileAccessError
                    ("The given masterlist path does not exist: " +:+ path)))
   ∧ LoadUserlist path w
     = (w, Throw (mkException FileAccessError
                    ("The given userlist path does not exist: " +:+ path))))
  ∧ (fs_exists (disk w) path = true →
     fs_exists (disk w) preludePath = false →
     LoadMasterlistWithPrelude path preludePath w
     = (w, Throw (mkException FileAccessError
                    ("The given masterlist prelude path does not exist: "
                     +:+ preludePath)))).
Proof.
  split.
  - intros Hmissing. split_and!; run_op; by rewrite Hmissing.
  - intros Hfound Hmissing. run_op. by rewrite Hfound, Hmissing.
Qed.

(** *** The writers *)

(** X23.  Whether they return or throw, [WriteUserMetadata] and
    [WriteMinimalList] leave the database, the directories and every file
    other than the output file as they were. *)
Theorem writers_frame (w : World Document) (outputFile : string)
  (overwrite : bool) :
  let only_output (write : string → bool → Op Document unit) :=
    database (write outputFile overwrite w).1 = database w
    ∧ directories (disk (write outputFile overwrite w).1) = directories (disk w)
    ∧ ∀ other, other ≠ outputFile →
        files (disk (write outputFile overwrite w).1) !! other
        = files (disk w) !! other in
  only_output WriteUserMetadata ∧ only_output WriteMinimalList.
Proof.
  intros only_output. unfold only_output.
  split; run_op;
    (destruct (fs_exists (disk w) (parent_path outputFile)); [|done]);
    cbn [negb];
    (destruct (fs_exists (disk w) outputFile && negb overwrite); [done|]);
    (case_bool_decide; [done|]); cbn [fst database disk directories files];
    (split_and!; [done|done|]);
    intros other Hother; by rewrite lookup_insert_ne.
Qed.

(** X24.  Into an existing directory, at a path that is not itself a
    directory, either writer returns normally exactly when the output file
    is not there yet or [overwrite] is set. *)
Theorem writers_succeed_iff (w : World Document) (outputFile : string)
  (overwrite : bool) :
  fs_exists (disk w) (parent_path outputFile) = true →
  outputFile ∉ directories (disk w) →
  ((WriteUserMetadata outputFile overwrite w).2 = Ok ()
   ↔ files (disk w) !! outputFile = None ∨ overwrite = true)
  ∧ ((WriteMinimalList outputFile overwrite w).2 = Ok ()
     ↔ files (disk w) !! outputFile = None ∨ overwrite = true).
Proof.
  intros Hdir Hnotdir.
  assert (fs_exists (disk w) outputFile && negb overwrite = false
          ↔ files (disk w) !! outputFile = None ∨ overwrite = true) as Hcheck.
  { unfold fs_exists. rewrite bool_decide_eq_false_2 by done. simpl.
    destruct (files (disk w) !! outputFile) as [document|].
    - rewrite (bool_decide_eq_true_2 (is_Some (Some document))) by eauto.
      destruct overwrite; simpl; split; [by right|done|done|by intros [?|?]].
    - rewrite (bool_decide_eq_false_2 (is_Some None)) by (by intros [? ?]).
      simpl. split; auto. }
  rewrite <- !Hcheck.
  split; run_op; rewrite Hdir; cbn [negb];
    (destruct (fs_exists (disk w) outputFile && negb overwrite);
     [done|by rewrite bool_decide_eq_false_2]).
Qed.

(** X25.  The minimal list of a minimal list is that list: what
    [WriteMinimalList] keeps of an entry is all a minimal entry has. *)
Theorem minimalList_of_idempotent (masterlist : MetadataList) :
  minimalList_of (minimalList_of masterlist) = minimalList_of masterlist.
Proof.
  unfold minimalList_of. rewrite !minimalList_loop. simpl.
  f_equal. rewrite <- list_fmap_compose. by apply list_fmap_ext.
Qed.

(** X26.  Writing the minimal list and loading that file as the masterlist
    leaves the minimal list as the masterlist and the userlist as it was.
    The document oracle is taken to read back the document it emitted for
    the minimal list. *)
Theorem write_minimal_then_load_masterlist (w : World Document)
  (outputFile : string) (overwrite : bool) :
  fs_exists (disk w) (parent_path outputFile) = true →
  outputFile ∉ directories (disk w) →
  files (disk w) !! outputFile = None ∨ overwrite = true →
  parse (emit (minimalList_of (masterlist_ (database w))))
  = Some (minimalList_of (masterlist_ (database w))) →
  ∃ written loaded,
    WriteMinimalList outputFile overwrite w = (written, Ok ())
    ∧ LoadMasterlist outputFile written = (loaded, Ok ())
    ∧ masterlist_ (database loaded) = minimalList_of (masterlist_ (database w))
    ∧ userlist_ (database loaded) = userlist_ (database w).
Proof.
  intros Hdir Hnotdir Hfree Hroundtrip.
  assert (fs_exists (disk w) outputFile && negb overwrite = false) as Hcheck.
  { destruct Hfree as [Hfree| ->]; [|apply andb_false_r].
    unfold fs_exists. rewrite Hfree.
    rewrite bool_decide_eq_false_2 by done.
    rewrite (bool_decide_eq_false_2 (is_Some None)); [done|].
    by intros [? ?]. }
  eexists _, _. split_and!.
  - run_op. rewrite Hdir. cbn [negb]. rewrite Hcheck.
    rewrite bool_decide_eq_false_2 by done. reflexivity.
  - run_op. unfold fs_exists.
    cbn [files directories disk database].
    rewrite lookup_insert_eq.
    rewrite (bool_decide_eq_true_2 (is_Some (Some _))) by eauto.
    rewrite orb_true_r.
    cbn [files directories disk database].
    rewrite lookup_insert_eq, Hroundtrip. reflexivity.
  - done.
  - done.
Qed.

End Database.

(** ** The theorems at the sample world *)

(** Settles a closed decidable proposition by evaluating its decision
    procedure. *)
Ltac by_evaluation :=
  match goal with
  | |- ?P => apply (bool_decide_unpack P); vm_compute; exact I
  end.

(** [mergeVectors] on strings: the second vector's new elements are appended,
    a vector merged with itself is itself. *)
Lemma mergeVectors_spec_witness :
  (∀ x : string, eq_op x x = true)
  ∧ mergeVectors ["a"; "b"] ["a"; "b"] = ["a"; "b"]
  ∧ replicate 2 "c" `sublist_of` drop 2 (mergeVectors ["a"; "b"] ["c"; "a"; "c"]).
Proof.
  assert (∀ x : string, eq_op x x = true) as Hrefl.
  { intros x. by apply bool_decide_eq_true. }
  destruct (mergeVectors_spec ["a"; "b"] ["a"; "b"]) as (_ & _ & _ & Hself).
  destruct (mergeVectors_spec ["a"; "b"] ["c"; "a"; "c"]) as (_ & _ & Hcopies & _).
  split_and!; [exact Hrefl|exact (Hself Hrefl)|].
  apply (Hcopies "c" 2); [reflexivity|].
  simpl. apply sublist_skip, sublist_cons, sublist_skip, sublist_nil.
Defined.

(** The groups of the sample world: "late" is in both stores, "mine" only in
    the userlist. *)
Lemma GetGroups_spec_witness :
  GetGroups (database sample_world) true !! 2
  = Some (mkGroup "late" ["default"; "early"] "Loads late")
  ∧ GetGroups (database sample_world) true !! 0 = Some (mkGroup "default" [] "")
  ∧ drop 3 (GetGroups (database sample_world) true)
    = [mkGroup "mine" ["late"] "My group"].
Proof.
  destruct (GetGroups_spec (database sample_world))
    as (_ & Hboth & Hmasterlist & Huser).
  split_and!.
  - apply (Hboth ltac:(by_evaluation) ltac:(by_evaluation)
                 2 (mkGroup "late" ["default"] "Loads late")
                 (mkGroup "late" ["early"] ""));
      [reflexivity|by_evaluation|reflexivity].
  - apply (Hmasterlist 0 (mkGroup "default" [] "")); [reflexivity|].
    intros u Hu. apply list_elem_of_In in Hu. simpl in Hu.
    destruct Hu as [<-|[<-|[]]]; discriminate.
  - exact Huser.
Defined.

(** Both stores of the sample world hold metadata for Blank.esp, each under
    a regular expression and under the filename.  Blank.esm is a load-after
    file in both and is in the result once, the Relev tag likewise, and of
    the two dirty-info entries for one CRC the userlist's is kept. *)
Lemma GetPluginMetadata_spec_witness :
  FindPlugin sample_IsRegexPlugin sample_regex_match
    (masterlist_ (database sample_world)) "Blank.esp"
  = Some sample_masterlist_effective
  ∧ FindPlugin sample_IsRegexPlugin sample_regex_match
      (userlist_ (database sample_world)) "Blank.esp"
    = Some sample_userlist_effective
  ∧ GetPluginMetadata sample_IsRegexPlugin sample_regex_match sample_EvaluateAll
      (database sample_world) "Blank.esp" true false
    = Ok (Some sample_merged)
  ∧ merged_as_specified sample_masterlist_effective sample_userlist_effective
      sample_merged.
Proof.
  destruct (GetPluginMetadata_spec sample_IsRegexPlugin sample_regex_match
              sample_EvaluateAll (database sample_world) "Blank.esp")
    as (_ & _ & _ & _ & Hboth & _).
  assert (FindPlugin sample_IsRegexPlugin sample_regex_match
            (masterlist_ (database sample_world)) "Blank.esp"
          = Some sample_masterlist_effective) as Hmasterlist
    by (vm_compute; reflexivity).
  assert (FindPlugin sample_IsRegexPlugin sample_regex_match
            (userlist_ (database sample_world)) "Blank.esp"
          = Some sample_userlist_effective) as Huserlist
    by (vm_compute; reflexivity).
  split; [exact Hmasterlist|]. split; [exact Huserlist|].
  exact (Hboth sample_masterlist_effective sample_userlist_effective
           Hmasterlist Huserlist).
Defined.

(** Loading the sample masterlist into a fresh world; a path that is not on
    the disk. *)
Lemma load_spec_witness :
  LoadMasterlist MetadataList sample_parse "/data/masterlist.yaml" sample_fresh_world
  = (mkWorld (mkApiDatabase sample_masterlist MetadataList_empty) sample_disk, Ok ())
  ∧ ∃ message,
      LoadUserlist MetadataList sample_parse "/data/missing.yaml" sample_fresh_world
      = (sample_fresh_world, Throw (mkException FileAccessError message)).
Proof.
  destruct (load_spec MetadataList sample_parse sample_parse_with_prelude
              sample_fresh_world "/data/masterlist.yaml" "/data/prelude.yaml")
    as ((_ & _ & _ & Hloaded) & _ & _).
  destruct (load_spec MetadataList sample_parse sample_parse_with_prelude
              sample_fresh_world "/data/missing.yaml" "/data/prelude.yaml")
    as (_ & _ & (Hmissing & _)).
  split.
  - apply (Hloaded sample_masterlist sample_masterlist); reflexivity.
  - apply Hmissing. vm_compute. reflexivity.
Defined.

(** Writing to a directory that does not exist, and over a file that does. *)
Lemma write_preconditions_witness :
  (∃ message,
     WriteUserMetadata MetadataList sample_emit sample_parent_path
       "/nowhere/userlist.yaml" true sample_world
     = (sample_world, Throw (mkException InvalidArgument message)))
  ∧ (∃ message,
       WriteMinimalList MetadataList sample_emit sample_parent_path
         "/data/masterlist.yaml" false sample_world
       = (sample_world, Throw (mkException FileAccessError message))).
Proof.
  destruct (write_preconditions MetadataList sample_emit sample_parent_path
              sample_world "/nowhere/userlist.yaml" true)
    as ((Hdirectory & _) & _).
  destruct (write_preconditions MetadataList sample_emit sample_parent_path
              sample_world "/data/masterlist.yaml" false)
    as (_ & (_ & Hfile & _)).
  split.
  - apply Hdirectory. vm_compute. reflexivity.
  - apply Hfile; vm_compute; reflexivity.
Defined.

(** The minimal list of the sample masterlist, written to a new file. *)
Lemma WriteMinimalList_spec_witness :
  (WriteMinimalList MetadataList sample_emit sample_parent_path
     "/data/taglist.yaml" false sample_world).2 = Ok ()
  ∧ files (disk (WriteMinimalList MetadataList sample_emit sample_parent_path
                   "/data/taglist.yaml" false sample_world).1)
    !! "/data/taglist.yaml"
    = Some (mkMetadataList
              [ mkPluginMetadata ".*" None [] [] [] [] [] [] [] [];
                mkPluginMetadata "Blank.esp" None [] [] [] []
                  [mkTag true "Relev" ""; mkTag false "Delev" ""]
                  [mkPluginCleaningData 3735928559 "2 ITM records" ""] [] [] ]
              [] [] []).
Proof.
  destruct (WriteMinimalList_spec MetadataList sample_emit sample_parent_path
              sample_world "/data/taglist.yaml" false)
    as (_ & _ & _ & _ & _ & _ & Hwrite).
  rewrite Hwrite.
  - split; [reflexivity|]. simpl. by rewrite lookup_insert_eq.
  - vm_compute. reflexivity.
  - vm_compute. reflexivity.
  - by_evaluation.
Defined.



(** ** The further properties at the samples *)

Lemma string_eq_op_spec (x y : string) : eq_op x y = true ↔ x = y.
Proof. apply bool_decide_eq_true. Qed.

Lemma mergeVectors_absorbs_witness :
  mergeVectors ["a"; "b"] ["b"; "a"; "b"] = ["a"; "b"]
  ∧ mergeVectors (mergeVectors ["a"] ["b"; "c"]) ["b"; "c"]
    = mergeVectors ["a"] ["b"; "c"].
Proof.
  split.
  - apply (mergeVectors_absorbs ["a"; "b"] ["b"; "a"; "b"]).
    intros x Hx. apply list_elem_of_In in Hx. simpl in Hx.
    destruct Hx as [<-|[<-|[<-|[]]]]; reflexivity.
  - apply (mergeVectors_absorbs ["a"] ["b"; "c"]).
    intros x. by apply string_eq_op_spec.
Defined.

Lemma mergeVectors_associative_witness :
  mergeVectors (mergeVectors ["a"; "b"] ["b"; "c"]) ["c"; "a"; "d"]
  = mergeVectors ["a"; "b"] (mergeVectors ["b"; "c"] ["c"; "a"; "d"]).
Proof.
  apply mergeVectors_associative.
  intros x y z Hxy%string_eq_op_spec Hyz%string_eq_op_spec.
  apply string_eq_op_spec. congruence.
Defined.

Lemma mergeVectors_elements_witness :
  "c" ∈ mergeVectors ["a"; "b"] ["b"; "c"].
Proof.
  apply (mergeVectors_elements ["a"; "b"] ["b"; "c"] "c" string_eq_op_spec).
  right. by_evaluation.
Defined.

Lemma mergeVectors_NoDup_witness :
  NoDup (mergeVectors ["a"; "b"] ["b"; "c"]).
Proof.
  apply (mergeVectors_NoDup ["a"; "b"] ["b"; "c"] string_eq_op_spec);
    by_evaluation.
Defined.

Lemma MergeGroups_keeps_masterlist_witness :
  ∃ g', MergeGroups (Groups sample_masterlist) (Groups sample_userlist) !! 2
        = Some g'
        ∧ Group_GetName g' = "late"
        ∧ ["default"] `prefix_of` Group_GetAfterGroups g'.
Proof.
  apply (MergeGroups_keeps_masterlist (Groups sample_masterlist)
           (Groups sample_userlist) 2 (mkGroup "late" ["default"] "Loads late")).
  reflexivity.
Defined.

Lemma MergeGroups_accumulates_witness :
  MergeGroups sample_repeated_masterlist_groups sample_repeated_user_groups !! 1
  = Some (mkGroup "late" ["default"; "mine"; "other"] "Later still").
Proof.
  apply (MergeGroups_accumulates sample_repeated_masterlist_groups
           sample_repeated_user_groups 1
           (mkGroup "late" ["default"] "Loads late")); [reflexivity|].
  intros j g' Hlt Hj. assert (j = 0) as -> by lia.
  injection Hj as <-. discriminate.
Defined.

Lemma MergeGroups_later_duplicate_witness :
  MergeGroups sample_repeated_masterlist_groups sample_repeated_user_groups !! 2
  = Some (mkGroup "late" ["early"] "A second late").
Proof.
  apply (MergeGroups_later_duplicate sample_repeated_masterlist_groups
           sample_repeated_user_groups 1 2
           (mkGroup "late" ["default"] "Loads late"));
    [lia|reflexivity|reflexivity|reflexivity].
Defined.

Lemma MergeGroups_NoDup_names_witness :
  NoDup (Group_GetName
           <$> MergeGroups (Groups sample_masterlist) (Groups sample_userlist)).
Proof.
  apply MergeGroups_NoDup_names; by_evaluation.
Defined.

(** The sample evaluator, asked anything but the unbalanced parenthesis in a
    state whose cache is right, answers [sample_holds] and keeps the cache
    right. *)
Lemma sample_Evaluate_consistent (condition : string) (cache : gmap string bool) :
  condition ≠ "(" → sample_cache_consistent cache →
  (sample_Evaluate condition cache).2 = Ok (sample_holds condition)
  ∧ sample_cache_consistent (sample_Evaluate condition cache).1.
Proof.
  intros Hparses Hgood.
  assert (sample_condition_outcome condition = Ok (sample_holds condition))
    as Houtcome.
  { unfold sample_condition_outcome. by rewrite bool_decide_eq_false_2. }
  unfold sample_Evaluate.
  destruct (cache !! condition) as [holds|] eqn:Hcached; simpl.
  - split; [|done]. apply Hgood in Hcached. congruence.
  - rewrite Houtcome. simpl. split; [done|].
    intros condition' holds' Hlookup.
    destruct (decide (condition = condition')) as [<-|Hne].
    + rewrite lookup_insert_eq in Hlookup. congruence.
    + rewrite lookup_insert_ne in Hlookup by done. by apply Hgood.
Qed.

Lemma sample_Evaluate_throws (cache : gmap string bool) :
  sample_cache_consistent cache →
  (sample_Evaluate "(" cache).2
  = Throw (mkException ConditionSyntaxError "Failed to parse condition").
Proof.
  intros Hgood. unfold sample_Evaluate.
  destruct (cache !! "(") as [holds|] eqn:Hcached; [|done].
  apply Hgood in Hcached. discriminate.
Qed.

Lemma sample_cleared_consistent (cache : gmap string bool) :
  sample_cache_consistent (sample_ClearConditionCache cache).
Proof.
  intros condition holds Hlookup. unfold sample_ClearConditionCache in Hlookup.
  by rewrite lookup_empty in Hlookup.
Qed.

Lemma GetGeneralMessages_sublist_witness :
  [mkMessage "Always shown" ""; mkMessage "From the user" "active(Blank.esm)"]
    `sublist_of` Messages (masterlist_ sample_messages_database)
                 ++ Messages (userlist_ sample_messages_database).
Proof.
  eapply (GetGeneralMessages_sublist (gmap string bool) sample_Evaluate
            sample_ClearConditionCache sample_messages_database ∅).
  vm_compute. reflexivity.
Defined.

Lemma GetGeneralMessages_filter_witness :
  (GetGeneralMessages (gmap string bool) sample_Evaluate
     sample_ClearConditionCache sample_messages_database true
     {["" := false]}).2
  = Ok [mkMessage "Always shown" ""; mkMessage "From the user" "active(Blank.esm)"].
Proof.
  apply (GetGeneralMessages_filter (gmap string bool) sample_Evaluate
           sample_ClearConditionCache sample_messages_database
           {["" := false]} sample_cache_consistent sample_holds).
  - apply sample_cleared_consistent.
  - intros message state Hmessage Hgood.
    apply sample_Evaluate_consistent; [|done].
    apply list_elem_of_In in Hmessage. simpl in Hmessage.
    destruct Hmessage as [<-|[<-|[<-|[]]]]; discriminate.
Defined.

Lemma GetGeneralMessages_throws_witness :
  (GetGeneralMessages (gmap string bool) sample_Evaluate
     sample_ClearConditionCache sample_broken_messages_database true ∅).2
  = Throw (mkException ConditionSyntaxError "Failed to parse condition").
Proof.
  apply (GetGeneralMessages_throws (gmap string bool) sample_Evaluate
           sample_ClearConditionCache sample_broken_messages_database ∅
           sample_cache_consistent
           [mkMessage "Always shown" ""; mkMessage "Never shown" "never"]
           [mkMessage "From the user" ""] (mkMessage "Broken" "(")).
  - reflexivity.
  - apply sample_cleared_consistent.
  - intros earlier state Hearlier Hgood.
    destruct (sample_Evaluate_consistent (Message_GetCondition earlier) state)
      as [Hanswer Hnext]; [|done|by eauto].
    apply list_elem_of_In in Hearlier. simpl in Hearlier.
    destruct Hearlier as [<-|[<-|[]]]; discriminate.
  - intros state Hgood. by apply sample_Evaluate_throws.
Defined.

Lemma GetPluginMetadata_one_store_witness :
  GetPluginMetadata sample_IsRegexPlugin sample_regex_match sample_EvaluateAll
    (mkApiDatabase sample_masterlist MetadataList_empty) "Blank.esp" true true
  = GetPluginMetadata sample_IsRegexPlugin sample_regex_match sample_EvaluateAll
      (mkApiDatabase sample_masterlist MetadataList_empty) "Blank.esp" false true
  ∧ GetPluginMetadata sample_IsRegexPlugin sample_regex_match sample_EvaluateAll
      (mkApiDatabase MetadataList_empty sample_userlist) "Blank.esp" true false
    = GetPluginUserMetadata sample_IsRegexPlugin sample_regex_match
        sample_EvaluateAll
        (mkApiDatabase MetadataList_empty sample_userlist) "Blank.esp" false.
Proof.
  split.
  - apply (GetPluginMetadata_one_store sample_IsRegexPlugin sample_regex_match
             sample_EvaluateAll
             (mkApiDatabase sample_masterlist MetadataList_empty)).
    reflexivity.
  - apply (GetPluginMetadata_one_store sample_IsRegexPlugin sample_regex_match
             sample_EvaluateAll
             (mkApiDatabase MetadataList_empty sample_userlist)).
    reflexivity.
Defined.

Lemma loads_commute_witness :
  ∃ afterUserlist,
    LoadUserlist MetadataList sample_parse "/data/userlist.yaml" sample_fresh_world
    = (afterUserlist, Ok ())
    ∧ LoadMasterlist MetadataList sample_parse "/data/masterlist.yaml" afterUserlist
      = (sample_world, Ok ()).
Proof.
  apply (loads_commute MetadataList sample_parse sample_fresh_world
           (mkWorld (mkApiDatabase sample_masterlist MetadataList_empty)
              sample_disk));
    vm_compute; reflexivity.
Defined.

Lemma loaders_name_the_missing_path_witness :
  LoadUserlist MetadataList sample_parse "/data/missing.yaml" sample_world
  = (sample_world,
     Throw (mkException FileAccessError
              "The given userlist path does not exist: /data/missing.yaml"))
  ∧ LoadMasterlistWithPrelude MetadataList sample_parse_with_prelude
      "/data/masterlist.yaml" "/data/prelude.yaml" sample_world
    = (sample_world,
       Throw (mkException FileAccessError
                "The given masterlist prelude path does not exist: /data/prelude.yaml")).
Proof.
  destruct (loaders_name_the_missing_path MetadataList sample_parse
              sample_parse_with_prelude sample_world
              "/data/missing.yaml" "/data/prelude.yaml")
    as [Hmissing _].
  destruct (loaders_name_the_missing_path MetadataList sample_parse
              sample_parse_with_prelude sample_world
              "/data/masterlist.yaml" "/data/prelude.yaml")
    as [_ Hprelude].
  split.
  - apply Hmissing. vm_compute. reflexivity.
  - apply Hprelude; vm_compute; reflexivity.
Defined.

Lemma writers_succeed_iff_witness :
  (WriteUserMetadata MetadataList sample_emit sample_parent_path
     "/data/userlist.yaml" true sample_world).2 = Ok ()
  ∧ (WriteMinimalList MetadataList sample_emit sample_parent_path
       "/data/userlist.yaml" false sample_world).2 ≠ Ok ().
Proof.
  destruct (writers_succeed_iff MetadataList sample_emit sample_parent_path
              sample_world "/data/userlist.yaml" true) as [Huser _];
    [vm_compute; reflexivity|by_evaluation|].
  destruct (writers_succeed_iff MetadataList sample_emit sample_parent_path
              sample_world "/data/userlist.yaml" false) as [_ Hminimal];
    [vm_compute; reflexivity|by_evaluation|].
  split.
  - apply Huser. by right.
  - intros [Hfree|Hoverwrite]%Hminimal; [|discriminate].
    vm_compute in Hfree. discriminate.
Defined.

Lemma write_minimal_then_load_masterlist_witness :
  ∃ written loaded,
    WriteMinimalList MetadataList sample_emit sample_parent_path
      "/data/taglist.yaml" false sample_world = (written, Ok ())
    ∧ LoadMasterlist MetadataList sample_parse "/data/taglist.yaml" written
      = (loaded, Ok ())
    ∧ masterlist_ (database loaded) = minimalList_of sample_masterlist
    ∧ userlist_ (database loaded) = sample_userlist.
Proof.
  apply (write_minimal_then_load_masterlist MetadataList sample_emit sample_parse
           sample_parent_path sample_world "/data/taglist.yaml" false).
  - vm_compute. reflexivity.
  - by_evaluation.
  - left. vm_compute. reflexivity.
  - reflexivity.
Defined.
